(** * Selektr: caret offsets over a DOM tree

    A shallow embedding of [src/src/index.mjs] (the ES module build of
    selektr).  The DOM is modelled as a tree of Element and Text nodes;
    a node's identity (what [===] compares) is its path of child indices
    from the document element.  A [TreeWalker] whose filter only ever
    answers FILTER_ACCEPT or FILTER_SKIP (the only answers of [filter])
    visits, through [nextNode], the accepted nodes after its current node
    in document order, and through [previousNode] the accepted nodes
    before it, back to the walker's root (see [walk_back] for the walk
    from a current node outside the root's subtree).  The document's
    Document node has [<html>] as its only child. *)

From Stdlib Require Import List String Arith Bool Lia.
Import ListNotations.
Local Set Warnings "-register-all".
Local Open Scope string_scope.
Local Open Scope list_scope.

Module Dom.

Inductive tree : Type :=
| Element (tagName : string) (childNodes : list tree)
| Text (data : string).

(** A node's identity: the child indices leading to it from the document
    element [<html>], which is the path [[]]. *)
Definition path := list nat.

(** The children of the document element. *)
Definition document := list tree.

Definition html (doc : document) : tree := Element "HTML" doc.

Definition nodeType (t : tree) : nat :=
  match t with Element _ _ => 1 | Text _ => 3 end.

Definition nodeName (t : tree) : string :=
  match t with Element tg _ => tg | Text _ => "#text" end.

Definition childCount (t : tree) : nat :=
  match t with Element _ ks => List.length ks | Text _ => 0 end.

(** [node.textContent.length]: the concatenated text of a subtree. *)
Fixpoint textLength (t : tree) : nat :=
  match t with
  | Text s => String.length s
  | Element _ ks => list_sum (map textLength ks)
  end.

(** A node as a walker meets it: its identity, the node, and its
    [nextSibling] (which [filter] inspects). *)
Record entry : Type := mkEntry {
  e_path : path;
  e_node : tree;
  e_next : option tree
}.

(** The entries of the children [ks] of the node at [p], the [i]-th
    first, each followed by its own subtree. *)
Fixpoint kids_of (f : path -> option tree -> tree -> list entry)
    (p : path) (i : nat) (ks : list tree) : list entry :=
  match ks with
  | [] => []
  | k :: ks' => f (p ++ [i]) (hd_error ks') k ++ kids_of f p (S i) ks'
  end.

(** The nodes of a subtree in document order (pre-order), the subtree's
    root first. *)
Fixpoint pre (p : path) (nx : option tree) (t : tree) : list entry :=
  mkEntry p t nx ::
  match t with
  | Element _ ks => kids_of pre p 0 ks
  | Text _ => []
  end.

Definition pre_kids := kids_of pre.

(** The node at a path, with its next sibling. *)
Fixpoint locate (t : tree) (nx : option tree) (q : path) : option (tree * option tree) :=
  match q with
  | [] => Some (t, nx)
  | i :: q' =>
      match t with
      | Element _ ks =>
          match nth_error ks i with
          | Some k => locate k (nth_error ks (S i)) q'
          | None => None
          end
      | Text _ => None
      end
  end.

Definition node_at (doc : document) (q : path) : option tree :=
  option_map fst (locate (html doc) None q).

(** The subtree of [root] in document order; empty when [root] is not a
    node of the document. *)
Definition subtree (doc : document) (root : path) : list entry :=
  match locate (html doc) None root with
  | Some (t, nx) => pre root nx t
  | None => []
  end.

Definition path_eqb (p q : path) : bool :=
  if list_eq_dec Nat.eq_dec p q then true else false.

(** [Element.contains]: [q] is [p] or a descendant of [p]. *)
Fixpoint is_prefix (p q : path) : bool :=
  match p, q with
  | [], _ => true
  | i :: p', j :: q' => Nat.eqb i j && is_prefix p' q'
  | _ :: _, [] => false
  end.

(** The walker's position of [q] in a node list: the nodes before it and
    the node itself. *)
Fixpoint seek (q : path) (l : list entry) : option (list entry * entry) :=
  match l with
  | [] => None
  | e :: l' =>
      if path_eqb (e_path e) q then Some ([], e)
      else match seek q l' with
           | Some (bef, x) => Some (e :: bef, x)
           | None => None
           end
  end.

End Dom.

Module Selektr.
Import Dom.

(** [const sectionTags = ['P', 'H1', ..., 'LI']] *)
Definition sectionTags : list string := ["P"; "H1"; "H2"; "H3"; "H4"; "H5"; "H6"; "LI"].

(** [isSection(node)] *)
Definition isSection (node : tree) : bool :=
  match node with
  | Element tg _ => existsb (String.eqb tg) sectionTags
  | Text _ => false
  end.

(** [is(node, 'UL,OL')] *)
Definition isList (node : tree) : bool :=
  match node with
  | Element tg _ => String.eqb tg "UL" || String.eqb tg "OL"
  | Text _ => false
  end.

(** [filter(node)]: [true] is FILTER_ACCEPT, [false] is FILTER_SKIP.
    [node.nextSibling && !is(node.nextSibling, 'UL,OL')] is falsy when
    there is no next sibling. *)
Definition filter (e : entry) : bool :=
  negb (isList (e_node e)) &&
  (negb (String.eqb (nodeName (e_node e)) "BR") ||
   match e_next e with
   | Some s => negb (isList s)
   | None => false
   end).

(** The walker's filter: [countAll ? null : filter]. *)
Definition accepts (countAll : bool) (e : entry) : bool :=
  countAll || filter e.

(** [tw.nextNode()] repeatedly, from the walker's root (the first node of
    [sub]). *)
Definition nextNodes (countAll : bool) (sub : list entry) : list entry :=
  List.filter (accepts countAll) (tl sub).

(** [tw.previousNode()] repeatedly from a current node, given the nodes
    of the walker's subtree that precede it. *)
Definition previousNodes (countAll : bool) (before : list entry) : list entry :=
  rev (List.filter (accepts countAll) before).

(** [countAll || isSection(node) || node.nodeName === 'BR'] *)
Definition significant (countAll : bool) (node : tree) : bool :=
  countAll || isSection node || String.eqb (nodeName node) "BR".

(** Body of the loop of [count]: what one visited node adds to [off]. *)
Definition count_step (root : path) (ref : option path) (countAll : bool) (node : entry) : nat :=
  (if negb (path_eqb (e_path node) root) && significant countAll (e_node node) then 1 else 0) +
  (match e_node node with
   | Text s =>
       match ref with
       | Some q => if path_eqb (e_path node) q then 0 else String.length s
       | None => String.length s
       end
   | Element _ _ => 0
   end).

(** [while (node) { ...; node = ref ? tw.previousNode() : tw.nextNode() }] *)
Fixpoint count_loop (root : path) (ref : option path) (countAll : bool)
    (nodes : list entry) (off : nat) : nat :=
  match nodes with
  | [] => off
  | node :: rest => count_loop root ref countAll rest (off + count_step root ref countAll node)
  end.

(** [tw.previousNode()] repeatedly from a [ref] outside [root]'s
    subtree, given the nodes before [ref] in document order, nearest
    first.  The walk visits the accepted ones until it meets [root]: an
    accepted [root] is visited and ends the walk; a skipped [root] with
    children ends it too (the walk comes back up to it from its first
    child); a skipped [root] without children is passed over like any
    other node (the walk goes on to its previous sibling).  The flag is
    [true] when the walk runs past [<html>] up to the Document node. *)
Fixpoint walk_back (root : path) (countAll : bool) (l : list entry) : list entry * bool :=
  match l with
  | [] => ([], true)
  | x :: l' =>
      if path_eqb (e_path x) root then
        if accepts countAll x then ([x], false)
        else if Nat.ltb 0 (childCount (e_node x)) then ([], false)
        else walk_back root countAll l'
      else
        let '(v, top) := walk_back root countAll l' in
        ((if accepts countAll x then [x] else []) ++ v, top)
  end.

(** [tw.currentNode = ref] for a [ref] that is a node of the document
    outside [root]'s subtree: [ref], then the nodes [walk_back] visits.
    Nothing when [root] or [ref] is not a node of the document. *)
Definition count_outside (doc : document) (root q : path) (countAll : bool) : list entry * bool :=
  match subtree doc root, seek q (subtree doc []) with
  | _ :: _, Some (before, e) =>
      let '(v, top) := walk_back root countAll (rev before) in (e :: v, top)
  | _, _ => ([], false)
  end.

(** The nodes of the document [count] visits: from [root] forwards, or
    from [ref] backwards ([tw.currentNode = ref]). *)
Definition count_visits (doc : document) (root : path) (ref : option path) (countAll : bool)
    : list entry :=
  let sub := subtree doc root in
  match ref with
  | None =>
      match sub with
      | [] => []
      | r :: _ => r :: nextNodes countAll sub
      end
  | Some q =>
      match seek q sub with
      | Some (before, e) => e :: previousNodes countAll before
      | None => fst (count_outside doc root q countAll)
      end
  end.

(** The walk of [count] reaches the Document node, the parent of
    [<html>], only from a [ref] outside [root]'s subtree.  The model's
    Document has [<html>] as its only child.  [filter] accepts the
    Document as it accepts a Text node (neither is an Element, so
    [is(node, 'UL,OL')] is false and [nodeName] is not ['BR']). *)
Definition reaches_document (doc : document) (root : path) (ref : option path) (countAll : bool)
    : bool :=
  match ref with
  | None => false
  | Some q =>
      match seek q (subtree doc root) with
      | Some _ => false
      | None => snd (count_outside doc root q countAll)
      end
  end.

(** [count(root, ref, countAll)]: the loop over the visited nodes of the
    tree, then the Document node when the walk reaches it, which adds a
    step only when [countAll] (it is neither a Section nor a [BR], nor a
    Text node). *)
Definition count (doc : document) (root : path) (ref : option path) (countAll : bool) : nat :=
  count_loop root ref countAll (count_visits doc root ref countAll) 0 +
  (if reaches_document doc root ref countAll && countAll then 1 else 0).

(** A [Position]: [{ ref, offset }]. *)
Record Position : Type := mkPosition { ref : path; offset : nat }.

(** The [while ((node = tw.nextNode()))] loop of [uncount]: the last node
    reached and the remaining offset. *)
Fixpoint uncount_loop (countAll : bool) (nodes : list entry) (r : entry) (off : nat)
    : entry * nat :=
  match nodes with
  | [] => (r, off)
  | node :: rest =>
      if significant countAll (e_node node) && Nat.eqb off 0 then (r, off)
      else
        let off := if significant countAll (e_node node) then off - 1 else off in
        match e_node node with
        | Text s =>
            if Nat.ltb (String.length s) off
            then uncount_loop countAll rest node (off - String.length s)
            else (node, off)
        | Element _ _ => uncount_loop countAll rest node off
        end
  end.

(** The walk of [uncount(root, off, countAll)] before its [BR] case: the
    node reached and the offset left.  No walk from a non-Element root
    ([if (root.nodeType === 1)]).  [None] when [root] is not a node of the
    document. *)
Definition resolve (doc : document) (root : path) (off : nat) (countAll : bool)
    : option (entry * nat) :=
  match subtree doc root with
  | [] => None
  | (r :: _) as sub =>
      Some (if Nat.eqb (nodeType (e_node r)) 1
            then uncount_loop countAll (nextNodes countAll sub) r off
            else (r, off))
  end.

(** [uncount(root, off, countAll)]; [off] is [None] when absent
    ([off = off || 0]).  A [BR] result is replaced by its parent and its
    index among the parent's children plus one. *)
Definition uncount (doc : document) (root : path) (off : option nat) (countAll : bool) : Position :=
  let off := match off with Some n => n | None => 0 end in
  match resolve doc root off countAll with
  | None => mkPosition root off
  | Some (refe, off) =>
      if String.eqb (nodeName (e_node refe)) "BR"
      then mkPosition (removelast (e_path refe)) (last (e_path refe) 0 + 1)
      else mkPosition (e_path refe) off
  end.

(** Measures used by the proofs: the step and the text length that one
    node adds in the loop of [count] without a [ref]. *)
Definition stepc (root : path) (countAll : bool) (e : entry) : nat :=
  if negb (path_eqb (e_path e) root) && significant countAll (e_node e) then 1 else 0.

Definition textc (e : entry) : nat :=
  match e_node e with Text s => String.length s | Element _ _ => 0 end.

(** What the accepted nodes of [l] add to [count(root)]. *)
Definition weight (root : path) (countAll : bool) (l : list entry) : nat :=
  list_sum (map (count_step root None countAll) (List.filter (accepts countAll) l)).

(** [A] precedes [B] in document order within [root]'s subtree. *)
Definition precedes (doc : document) (root a b : path) : Prop :=
  exists R1 x R2 y R3,
    subtree doc root = R1 ++ x :: R2 ++ y :: R3 /\ e_path x = a /\ e_path y = b.

End Selektr.

(** The host: the current selection and the module state of
    [index.mjs].  Failures are an [Error] raised by the module itself
    ([InvalidCaret]) or a failure of the host API ([HostError]: a
    [TypeError] on a missing node, [getRangeAt(0)] without a range). *)
Module Host.
Import Dom Selektr.

Inductive error : Type := InvalidCaret | HostError.

Inductive result (A : Type) : Type := Ok (a : A) | Err (e : error).
Arguments Ok {A} a.
Arguments Err {A} e.

Definition bind {A B : Type} (m : result A) (k : A -> result B) : result B :=
  match m with Ok a => k a | Err e => Err e end.

Notation "'let*' x := m 'in' k" := (bind m (fun x => k))
  (at level 200, x name, m at level 100, k at level 200).

(** A [Range]: two boundary points. *)
Record Range : Type := mkRange {
  startContainer : path; startOffset : nat;
  endContainer : path; endOffset : nat
}.

Definition collapsed (r : Range) : bool :=
  path_eqb (startContainer r) (endContainer r) && Nat.eqb (startOffset r) (endOffset r).

Fixpoint common_prefix (p q : path) : path :=
  match p, q with
  | i :: p', j :: q' => if Nat.eqb i j then i :: common_prefix p' q' else []
  | _, _ => []
  end.

Definition commonAncestorContainer (r : Range) : path :=
  common_prefix (startContainer r) (endContainer r).

(** [window.getSelection()]: its ranges and, where the host has it,
    [Selection.containsNode]. *)
Record Selection : Type := mkSelection {
  ranges : list Range;
  containsNode : option (path -> bool -> bool)
}.

Record Host : Type := mkHost {
  h_doc : document;
  h_sel : Selection;
  h_element : option path;   (* [let _element] *)
  h_body : path              (* [document.body] *)
}.

(** [sel.getRangeAt(0)] *)
Definition getRangeAt0 (sel : Selection) : result Range :=
  match ranges sel with r :: _ => Ok r | [] => Err HostError end.

Definition node_of (doc : document) (p : path) : result tree :=
  match node_at doc p with Some t => Ok t | None => Err HostError end.

Inductive Caret : Type := Start | End.

Definition container (r : Range) (c : Caret) : path :=
  match c with Start => startContainer r | End => endContainer r end.

Definition boundaryOffset (r : Range) (c : Caret) : nat :=
  match c with Start => startOffset r | End => endOffset r end.

(** [closest(ref, sectionTags.join(','))]: the nearest inclusive
    ancestor that is a Section element. *)
Definition closest (doc : document) (p : path) : option path :=
  find (fun q => match node_at doc q with Some t => isSection t | None => false end)
       (map (fun k => firstn k p) (rev (seq 0 (S (List.length p))))).

(** [offset(element, caret, countAll)]; [caret] is [None] when absent
    ([caret || 'end']). *)
Definition offset (h : Host) (element : option path) (caret : option Caret) (countAll : bool)
    : result nat :=
  let c := match caret with Some c => c | None => End end in
  let* rng := getRangeAt0 (h_sel h) in
  let ref := container rng c in
  let off := boundaryOffset rng c in
  let* element :=
    match element with
    | Some e => Ok e
    | None => match closest (h_doc h) ref with Some e => Ok e | None => Err HostError end
    end in
  let* t := node_of (h_doc h) ref in
  let* refoff :=
    if Nat.eqb (nodeType t) 1 && Nat.ltb 0 off
    then let* child := node_of (h_doc h) (ref ++ [off - 1]) in
         Ok (ref ++ [off - 1], textLength child)
    else Ok (ref, off) in
  Ok (count (h_doc h) element (Some (fst refoff)) countAll + snd refoff).

(** [contains(node, partlyContained)] *)
Definition contains (h : Host) (node : path) (partlyContained : bool) : result bool :=
  let doc := h_doc h in
  let* t := node_of doc node in
  let partlyContained := if Nat.eqb (nodeType t) 3 then true else partlyContained in
  match containsNode (h_sel h) with
  | Some native => Ok (native node partlyContained)
  | None =>
      let* rng := getRangeAt0 (h_sel h) in
      let ca := commonAncestorContainer rng in
      let* ct := node_of doc ca in
      let element := if Nat.eqb (nodeType ct) 1 then ca else removelast ca in
      if negb (path_eqb element node) && negb (is_prefix element node)
      then Ok (partlyContained && is_prefix node element)
      else
        let* rangeStartOffset := offset h (Some element) (Some Start) true in
        let* rangeEndOffset := offset h (Some element) (Some End) true in
        let startOffset := count doc element (Some node) true in
        let endOffset :=
          if Nat.eqb (nodeType t) 1 then startOffset + count doc node None true + 1
          else startOffset + textLength t in
        Ok ((Nat.leb rangeStartOffset startOffset && Nat.leb endOffset rangeEndOffset) ||
            (partlyContained &&
             ((Nat.leb startOffset rangeStartOffset && Nat.leb rangeStartOffset endOffset) ||
              (Nat.leb startOffset rangeEndOffset && Nat.leb rangeEndOffset endOffset))))
  end.

(** The argument of [set]: a [Position], or [Positions] whose [end] may
    be absent. *)
Inductive Positions : Type :=
| OnePosition (p : Position)
| TwoPositions (start : Position) (end_ : option Position).

(** The [start] and [end] of [set(positions, shouldUncount)]: each is
    passed through [uncount] unless [shouldUncount === false]; an absent
    or identical [end] is [start]. *)
Definition set_boundaries (doc : document) (positions : Positions) (shouldUncount : option bool)
    : Position * Position :=
  let resolve_pos (p : Position) :=
    match shouldUncount with
    | Some false => p
    | _ => uncount doc (ref p) (Some (Selektr.offset p)) false
    end in
  match positions with
  | OnePosition p => let s := resolve_pos p in (s, s)
  | TwoPositions s None => let s := resolve_pos s in (s, s)
  | TwoPositions s (Some e) => (resolve_pos s, resolve_pos e)
  end.

(** One half of the bounds check of [set]. *)
Definition exceeds (doc : document) (p : Position) : result bool :=
  let* t := node_of doc (ref p) in
  Ok (if Nat.eqb (nodeType t) 1 then Nat.ltb (childCount t) (Selektr.offset p)
      else Nat.ltb (textLength t) (Selektr.offset p)).

(** Tree order: [p] comes before [q] (an ancestor before its
    descendants, an earlier sibling's subtree before a later one). *)
Fixpoint path_ltb (p q : path) : bool :=
  match p, q with
  | [], [] => false
  | [], _ :: _ => true
  | _ :: _, [] => false
  | i :: p', j :: q' => Nat.ltb i j || (Nat.eqb i j && path_ltb p' q')
  end.

(** The position of the boundary point [(na, oa)] relative to [(nb, ob)]
    when [na] comes before [nb] in tree order: after when [na] is an
    ancestor of [nb] whose child towards [nb] has an index below [oa],
    before otherwise. *)
Definition bp_position_preceding (na : path) (oa : nat) (nb : path) : comparison :=
  if is_prefix na nb && Nat.ltb (nth (List.length na) nb 0) oa then Gt else Lt.

(** The position of the boundary point [(na, oa)] relative to [(nb, ob)]
    (DOM Standard, "position of a boundary point"): [Lt] before, [Eq]
    equal, [Gt] after. *)
Definition bp_position (na : path) (oa : nat) (nb : path) (ob : nat) : comparison :=
  if path_eqb na nb then Nat.compare oa ob
  else if path_ltb nb na then CompOpp (bp_position_preceding nb ob na)
  else bp_position_preceding na oa nb.

(** [const rng = document.createRange(); rng.setStart(start.ref,
    start.offset || 0); rng.setEnd(end.ref, end.offset || 0);
    sel.removeAllRanges(); sel.addRange(rng)].  The new range is
    collapsed at [(document, 0)], before every boundary point of the
    document, so [setStart] moves both its ends to [start]; [setEnd] then
    moves its start too when [end] is before [start]. *)
Definition install (sel : Selection) (s e : Position) : Selection :=
  let s' := match bp_position (ref e) (Selektr.offset e) (ref s) (Selektr.offset s) with
            | Lt => e
            | _ => s
            end in
  mkSelection [mkRange (ref s') (Selektr.offset s') (ref e) (Selektr.offset e)] (containsNode sel).

(** [set(positions, shouldUncount)]: the selection afterwards. *)
Definition set (h : Host) (positions : Positions) (shouldUncount : option bool) : result Selection :=
  let '(start, end_) := set_boundaries (h_doc h) positions shouldUncount in
  let* bs := exceeds (h_doc h) start in
  if bs then Ok (h_sel h) else
  let* be := exceeds (h_doc h) end_ in
  if be then Ok (h_sel h) else
  Ok (install (h_sel h) start end_).

(** Arguments of [get] are JavaScript values. *)
Inductive jsval : Type :=
| JUndefined | JNull | JBool (b : bool) | JNumber (z : nat) | JString (s : string) | JNode (p : path).

Definition truthy (v : jsval) : bool :=
  match v with
  | JUndefined | JNull => false
  | JBool b => b
  | JNumber z => negb (Nat.eqb z 0)
  | JString s => negb (String.eqb s "")
  | JNode _ => true
  end.

(** [get(caret, element, countAll)] with [caret] one of ['start'],
    ['end']. *)
Definition get_caret (h : Host) (c : Caret) (element countAll : jsval) : result Position :=
  match element with
  | JBool true =>
      let* rng := getRangeAt0 (h_sel h) in
      Ok (mkPosition (container rng c) (boundaryOffset rng c))
  | _ =>
      let* el :=
        if truthy element
        then match element with JNode p => Ok p | _ => Err HostError end
        else match h_element h with Some p => Ok p | None => Ok (h_body h) end in
      let* off := offset h (Some el) (Some c) (truthy countAll) in
      Ok (mkPosition el off)
  end.

Inductive GetResult : Type :=
| GotPosition (p : Position)
| GotPositions (start end_ : Position).

(** [range()]: [rng.collapsed] on a [null] range is a [TypeError]. *)
Definition range (sel : Selection) : result Range := getRangeAt0 sel.

(** [get(caret, element, countAll)] *)
Definition get (h : Host) (caret element countAll : jsval) : result GetResult :=
  match caret with
  | JString s =>
      if String.eqb s "start" then let* p := get_caret h Start element countAll in Ok (GotPosition p)
      else if String.eqb s "end" then let* p := get_caret h End element countAll in Ok (GotPosition p)
      else Err InvalidCaret
  | _ =>
      let* end_ := get_caret h End caret element in
      let* rng := range (h_sel h) in
      let* start := if collapsed rng then Ok end_ else get_caret h Start caret element in
      Ok (GotPositions start end_)
  end.

(** The [ref]s of the positions passed to [set]. *)
Definition position_refs (positions : Positions) : list path :=
  match positions with
  | OnePosition p => [ref p]
  | TwoPositions s None => [ref s]
  | TwoPositions s (Some e) => [ref s; ref e]
  end.

End Host.

(** The remaining exported functions of [index.mjs] built on the
    selection model. *)
Module Api.
Import Dom Selektr Host.

(** [descendants(node, { nodeType: 3 })] (package [descendants]): the Text
    nodes strictly inside [node], in document order. *)
Definition textDescendants (doc : document) (node : path) : list entry :=
  List.filter (fun e => Nat.eqb (nodeType (e_node e)) 3) (tl (subtree doc node)).

(** [const textNodes = node.nodeType === 3 ? [node] : descendants(...)] *)
Definition textNodesOf (doc : document) (node : path) (t : tree) : list entry :=
  if Nat.eqb (nodeType t) 3 then [mkEntry node t None] else textDescendants doc node.

(** [select(node)] *)
Definition select (h : Host) (node : path) : result Selection :=
  let* t := node_of (h_doc h) node in
  match textNodesOf (h_doc h) node t with
  | [] => set h (OnePosition (mkPosition node 0)) None
  | f :: rest =>
      let l := last (f :: rest) f in
      set h (TwoPositions (mkPosition (e_path f) 0)
                          (Some (mkPosition (e_path l) (textLength (e_node l))))) None
  end.

(** [containsEvery(nodes, partlyContained)]: [Array.prototype.every]
    stops at the first node not contained. *)
Fixpoint containsEvery (h : Host) (nodes : list path) (partlyContained : bool) : result bool :=
  match nodes with
  | [] => Ok true
  | n :: ns =>
      let* b := contains h n partlyContained in
      if b then containsEvery h ns partlyContained else Ok false
  end.

(** [containsSome(nodes, partlyContained)]: [Array.prototype.some]
    stops at the first node contained. *)
Fixpoint containsSome (h : Host) (nodes : list path) (partlyContained : bool) : result bool :=
  match nodes with
  | [] => Ok false
  | n :: ns =>
      let* b := contains h n partlyContained in
      if b then Ok true else containsSome h ns partlyContained
  end.

(** [contained(opts, partlyContained)] with [opts] an array of nodes
    ([check = opts]): the nodes of [check] that [contains] accepts, in
    order.  ([opts] given as a NodeList or an options object goes through
    [descendants] with a selector and is not modelled.) *)
Fixpoint contained (h : Host) (check : list path) (partlyContained : bool) : result (list path) :=
  match check with
  | [] => Ok []
  | n :: ns =>
      let* b := contains h n partlyContained in
      let* rest := contained h ns partlyContained in
      Ok (if b then n :: rest else rest)
  end.

(** [children(section, 'UL,OL')]: the list children of a node, in order. *)
Fixpoint list_children_from (p : path) (i : nat) (ks : list tree) : list path :=
  match ks with
  | [] => []
  | k :: ks' => (if isList k then [p ++ [i]] else []) ++ list_children_from p (S i) ks'
  end.

Definition listChildren (doc : document) (p : path) : list path :=
  match node_at doc p with
  | Some (Element _ ks) => list_children_from p 0 ks
  | _ => []
  end.

(** [isAtStartOfSection(section)]: [section] is [None] when absent;
    [range().startContainer] fails without a range. *)
Definition isAtStartOfSection (h : Host) (section : option path) : result bool :=
  let* section :=
    match section with
    | Some s => Ok s
    | None =>
        let* rng := range (h_sel h) in
        match closest (h_doc h) (startContainer rng) with
        | Some s => Ok s
        | None => Err HostError   (* [offset(null, 'start')] reaches [count(null)] *)
        end
    end in
  let* off := offset h (Some section) (Some Start) false in
  Ok (Nat.eqb off 0).

(** The end of [isAtEndOfSection]: [offset(section, 'end')] against the
    count up to the first nested list, or the whole count. *)
Definition atEndOf (h : Host) (section : path) : result bool :=
  let* off := offset h (Some section) (Some End) false in
  let result :=
    match listChildren (h_doc h) section with
    | l :: _ => count (h_doc h) section (Some l) false
    | [] => count (h_doc h) section None false
    end in
  Ok (Nat.eqb off result).

(** [isAtEndOfSection(section)] *)
Definition isAtEndOfSection (h : Host) (section : option path) : result bool :=
  let* rng := range (h_sel h) in
  let endContainer := endContainer rng in
  match section with
  | Some s =>
      if negb (path_eqb s endContainer) && negb (is_prefix s endContainer) then Ok false
      else atEndOf h s
  | None =>
      match closest (h_doc h) endContainer with
      | Some s => atEndOf h s
      | None => Err HostError   (* [offset(null, 'end')] reaches [count(null)] *)
      end
  end.

(** [setElement(element)]: the module's default [element]. *)
Definition setElement (h : Host) (element : option path) : Host :=
  mkHost (h_doc h) (h_sel h) element (h_body h).

End Api.

(** * Proofs *)

Module Structure.
Import Dom.

Section tree_rect.
Variable P : tree -> Prop.
Hypothesis HText : forall s, P (Text s).
Hypothesis HElement : forall tg ks, Forall P ks -> P (Element tg ks).

Fixpoint tree_ind' (t : tree) : P t :=
  match t with
  | Text s => HText s
  | Element tg ks =>
      HElement tg ks
        ((fix go (ks : list tree) : Forall P ks :=
            match ks with
            | [] => Forall_nil _
            | k :: ks' => Forall_cons _ (tree_ind' k) (go ks')
            end) ks)
  end.
End tree_rect.

Lemma pre_Element p nx tg ks :
  pre p nx (Element tg ks) = mkEntry p (Element tg ks) nx :: pre_kids p 0 ks.
Proof. reflexivity. Qed.

Lemma pre_Text p nx s : pre p nx (Text s) = [mkEntry p (Text s) nx].
Proof. reflexivity. Qed.

Lemma path_eqb_spec p q : path_eqb p q = true <-> p = q.
Proof. unfold path_eqb; destruct (list_eq_dec Nat.eq_dec p q); split; congruence. Qed.

Lemma path_eqb_refl p : path_eqb p p = true.
Proof. apply path_eqb_spec; reflexivity. Qed.

Lemma path_eqb_neq p q : p <> q -> path_eqb p q = false.
Proof. intro H; destruct (path_eqb p q) eqn:E; [apply path_eqb_spec in E; contradiction | reflexivity]. Qed.

(** Every path of a subtree extends the subtree root's path, and no path
    occurs twice. *)
Definition pre_ok (t : tree) : Prop :=
  forall p nx,
    Forall (fun e => exists s, e_path e = p ++ s) (pre p nx t) /\
    NoDup (map e_path (pre p nx t)).

Lemma pre_kids_ok p ks i :
  Forall pre_ok ks ->
  Forall (fun e => exists j s, i <= j /\ e_path e = p ++ j :: s) (kids_of pre p i ks) /\
  NoDup (map e_path (kids_of pre p i ks)).
Proof.
  intros Hks; revert i; induction Hks as [|k ks Hk Hks IH]; intro i; simpl.
  - split; constructor.
  - destruct (Hk (p ++ [i]) (hd_error ks)) as [Hf Hn].
    destruct (IH (S i)) as [Hf' Hn'].
    split.
    + apply Forall_app; split.
      * eapply Forall_impl; [|exact Hf]; intros e [s Hs].
        exists i, s; split; [lia|]; rewrite Hs, <- app_assoc; reflexivity.
      * eapply Forall_impl; [|exact Hf']; intros e (j & s & Hj & Hs).
        exists j, s; split; [lia|exact Hs].
    + rewrite map_app; apply NoDup_app; [exact Hn|exact Hn'|].
      intros q Hq Hq'.
      apply in_map_iff in Hq as (e1 & <- & He1).
      apply in_map_iff in Hq' as (e2 & Heq & He2).
      rewrite Forall_forall in Hf, Hf'.
      destruct (Hf e1 He1) as [s1 Hs1]; destruct (Hf' e2 He2) as (j & s2 & Hj & Hs2).
      rewrite Hs1, Hs2, <- app_assoc in Heq; simpl in Heq.
      apply app_inv_head in Heq; injection Heq; lia.
Qed.

Lemma pre_all_ok t : pre_ok t.
Proof.
  induction t as [s|tg ks Hks] using tree_ind'; intros p nx.
  - rewrite pre_Text; split.
    + constructor; [exists []; rewrite app_nil_r; reflexivity|constructor].
    + simpl; constructor; [intros []|constructor].
  - rewrite pre_Element.
    destruct (pre_kids_ok p ks 0 Hks) as [Hf Hn]; split.
    + constructor; [exists []; rewrite app_nil_r; reflexivity|].
      eapply Forall_impl; [|exact Hf]; intros e (j & s & _ & Hs); eauto.
    + simpl; constructor; [|exact Hn].
      intro Hin; apply in_map_iff in Hin as (e & Heq & He).
      rewrite Forall_forall in Hf; destruct (Hf e He) as (j & s & _ & Hs).
      rewrite Hs in Heq; apply (f_equal (@List.length nat)) in Heq.
      rewrite length_app in Heq; simpl in Heq; lia.
Qed.

(** The subtree of a node: its root entry first, all paths distinct. *)
Lemma subtree_shape doc root :
  subtree doc root = [] \/
  exists t nx, locate (html doc) None root = Some (t, nx) /\
    subtree doc root = pre root nx t /\ NoDup (map e_path (pre root nx t)).
Proof.
  unfold subtree; destruct (locate (html doc) None root) as [[t nx]|]; [right|left; reflexivity].
  exists t, nx; split; [reflexivity|split; [reflexivity|apply pre_all_ok]].
Qed.

Lemma pre_head p nx t : exists rest, pre p nx t = mkEntry p t nx :: rest.
Proof. destruct t; simpl; eauto. Qed.

Lemma seek_app q l1 x l2 :
  ~ In q (map e_path l1) -> e_path x = q -> seek q (l1 ++ x :: l2) = Some (l1, x).
Proof.
  intros Hn Hx; induction l1 as [|e l1 IH]; cbn [seek app map In] in *.
  - rewrite Hx, path_eqb_refl; reflexivity.
  - assert (Hne : e_path e <> q) by (intro Heq; apply Hn; left; exact Heq).
    rewrite (path_eqb_neq _ _ Hne).
    rewrite IH by tauto; reflexivity.
Qed.

End Structure.

Module RoundTrip.
Import Dom Selektr Structure.

(** Without a [ref], or from a [ref] inside [root]'s subtree, the walk
    of [count] stays in that subtree. *)
Lemma count_None_eq doc root ca :
  count doc root None ca = count_loop root None ca (count_visits doc root None ca) 0.
Proof. unfold count; cbn [reaches_document andb]; apply Nat.add_0_r. Qed.

Lemma count_seek_eq doc root q ca be :
  seek q (subtree doc root) = Some be ->
  count doc root (Some q) ca = count_loop root (Some q) ca (count_visits doc root (Some q) ca) 0.
Proof. intro H; unfold count, reaches_document; rewrite H; cbn [andb]; apply Nat.add_0_r. Qed.


Lemma count_loop_sum root ref ca l off :
  count_loop root ref ca l off = off + list_sum (map (count_step root ref ca) l).
Proof.
  revert off; induction l as [|e l IH]; intro off; simpl; [lia|].
  rewrite IH; lia.
Qed.

Lemma list_sum_map_rev {A} (f : A -> nat) l :
  list_sum (map f (rev l)) = list_sum (map f l).
Proof.
  induction l as [|a l IH]; simpl; [reflexivity|].
  rewrite map_app, list_sum_app, IH; simpl; lia.
Qed.

Lemma count_step_None root ca e :
  count_step root None ca e = stepc root ca e + textc e.
Proof. unfold count_step, stepc, textc; destruct (e_node e); reflexivity. Qed.

Lemma count_step_self root ca e :
  count_step root (Some (e_path e)) ca e = stepc root ca e.
Proof.
  unfold count_step, stepc; rewrite path_eqb_refl; destruct (e_node e); simpl; lia.
Qed.

Lemma count_step_other root ca q e :
  e_path e <> q -> count_step root (Some q) ca e = count_step root None ca e.
Proof. intro H; unfold count_step; rewrite (path_eqb_neq _ _ H); reflexivity. Qed.

Lemma stepc_sig root ca e :
  e_path e <> root -> stepc root ca e = if significant ca (e_node e) then 1 else 0.
Proof. intro H; unfold stepc; rewrite (path_eqb_neq _ _ H); reflexivity. Qed.

Lemma weight_app root ca l1 l2 :
  weight root ca (l1 ++ l2) = weight root ca l1 + weight root ca l2.
Proof. unfold weight; rewrite filter_app, map_app, list_sum_app; reflexivity. Qed.

Lemma weight_one root ca e :
  weight root ca [e] = if accepts ca e then stepc root ca e + textc e else 0.
Proof.
  unfold weight; simpl; destruct (accepts ca e); simpl; [rewrite count_step_None|]; lia.
Qed.

Ltac sig_lia :=
  repeat match goal with
         | |- context [significant ?c ?t] => destruct (significant c t)
         | H : context [significant ?c ?t] |- _ => destruct (significant c t)
         end;
  cbv beta iota in *; lia.

Section Loop.
Variables (root : path) (ca : bool) (n : nat).

(** The invariant of the walk of [uncount]: [B] are the nodes passed,
    [cur] the last one reached, [cb] what [count] adds before [cur]. *)
Lemma uncount_loop_inv R : forall B cur off cb x o,
  Forall (fun e => e_path e <> root) R ->
  off + weight root ca B = n ->
  n <= weight root ca (B ++ R) ->
  cb + stepc root ca cur + textc cur = weight root ca B ->
  (0 < textc cur -> 0 < off) ->
  uncount_loop ca (List.filter (accepts ca) R) cur off = (x, o) ->
  o <= textc x /\
  ((x = cur /\ o + cb + stepc root ca cur = n) \/
   (exists R1 R2, R = R1 ++ x :: R2 /\ accepts ca x = true /\
      o + weight root ca (B ++ R1) + stepc root ca x = n)).
Proof.
  induction R as [|y R IH]; intros B cur off cb x o HR Hoff Hle Hcb Htx Hloop.
  - simpl in Hloop; injection Hloop as <- <-.
    rewrite app_nil_r in Hle.
    assert (off = 0) by lia; subst off.
    split; [lia|]; left; split; [reflexivity|].
    destruct (textc cur) eqn:Et; [lia|].
    specialize (Htx ltac:(lia)); lia.
  - apply Forall_cons_iff in HR as [Hy HR'].
    assert (Hw : weight root ca (B ++ [y]) =
                 weight root ca B + (if accepts ca y then stepc root ca y + textc y else 0))
      by (rewrite weight_app, weight_one; reflexivity).
    rewrite (stepc_sig _ _ _ Hy) in Hw.
    simpl in Hloop; destruct (accepts ca y) eqn:Ha.
    + simpl in Hloop.
      destruct (significant ca (e_node y) && Nat.eqb off 0) eqn:Hb.
      * injection Hloop as <- <-.
        apply andb_true_iff in Hb as [_ Hb]; apply Nat.eqb_eq in Hb; subst off.
        split; [lia|]; left; split; [reflexivity|].
        destruct (textc cur) eqn:Et; [lia|].
        specialize (Htx ltac:(lia)); lia.
      * assert (Hge : (if significant ca (e_node y) then 1 else 0) <= off).
        { destruct (significant ca (e_node y)); simpl in Hb; [|lia].
          apply Nat.eqb_neq in Hb; lia. }
        unfold textc in Hw; destruct (e_node y) as [tg ks|s] eqn:Hy'.
        -- edestruct (IH (B ++ [y]) y (if significant ca (Element tg ks) then off - 1 else off) (weight root ca B) x o) as [Hox [[-> Ho] | (R1 & R2 & -> & Hax & Ho)]];
             [exact HR' | | | | | exact Hloop | |].
           ++ rewrite Hw; sig_lia.
           ++ rewrite <- app_assoc; exact Hle.
           ++ rewrite (stepc_sig _ _ _ Hy), Hw; unfold textc; rewrite Hy'; sig_lia.
           ++ unfold textc; rewrite Hy'; sig_lia.
           ++ split; [exact Hox|].
              right; exists [], R; rewrite app_nil_r; repeat split; [exact Ha|].
              rewrite (stepc_sig _ _ _ Hy) in Ho |- *; sig_lia.
           ++ split; [exact Hox|].
              right; exists (y :: R1), R2; rewrite <- app_assoc in Ho; repeat split; assumption.
        -- destruct (Nat.ltb (String.length s) _) eqn:Hlt.
           ++ apply Nat.ltb_lt in Hlt.
              edestruct (IH (B ++ [y]) y ((if significant ca (Text s) then off - 1 else off) - String.length s) (weight root ca B) x o) as [Hox [[-> Ho] | (R1 & R2 & -> & Hax & Ho)]];
                [exact HR' | | | | | exact Hloop | |].
              ** rewrite Hw; sig_lia.
              ** rewrite <- app_assoc; exact Hle.
              ** rewrite (stepc_sig _ _ _ Hy), Hw; unfold textc; rewrite Hy'; sig_lia.
              ** unfold textc; rewrite Hy'; sig_lia.
              ** split; [exact Hox|].
                 right; exists [], R; rewrite app_nil_r; repeat split; [exact Ha|].
                 rewrite (stepc_sig _ _ _ Hy) in Ho |- *; sig_lia.
              ** split; [exact Hox|].
                 right; exists (y :: R1), R2; rewrite <- app_assoc in Ho; repeat split; assumption.
           ++ apply Nat.ltb_ge in Hlt.
              injection Hloop as <- <-; split; [unfold textc; rewrite Hy'; exact Hlt|].
              right; exists [], R; rewrite app_nil_r.
              repeat split; [exact Ha|]; rewrite (stepc_sig _ _ _ Hy), Hy'; sig_lia.
    + edestruct (IH (B ++ [y]) cur off cb x o) as [Hox [[-> Ho] | (R1 & R2 & -> & Hax & Ho)]];
        [exact HR' | | | | | exact Hloop | |].
      * rewrite Hw; lia.
      * rewrite <- app_assoc; exact Hle.
      * rewrite Hw, Nat.add_0_r; exact Hcb.
      * exact Htx.
      * split; [exact Hox|]; left; split; [reflexivity|exact Ho].
      * split; [exact Hox|].
        right; exists (y :: R1), R2; rewrite <- app_assoc in Ho; repeat split; assumption.
Qed.

End Loop.

(** [count] from an Element root without a [ref]: the weight of the
    root's descendants. *)
Lemma count_total doc root ca tg ks r R :
  subtree doc root = r :: R -> e_path r = root -> e_node r = Element tg ks ->
  count doc root None ca = weight root ca R.
Proof.
  intros Hs Hp Hn; rewrite count_None_eq; unfold count_visits, nextNodes; rewrite Hs; simpl tl.
  rewrite count_loop_sum; cbn [map list_sum fold_right].
  rewrite count_step_None; unfold stepc, textc; rewrite Hp, Hn, path_eqb_refl.
  unfold weight, list_sum; simpl; lia.
Qed.

(** [count] up to a descendant [x] of an Element root. *)
Lemma count_at doc root ca tg ks r R1 x R2 :
  subtree doc root = r :: R1 ++ x :: R2 -> e_path r = root -> e_node r = Element tg ks ->
  NoDup (map e_path (r :: R1 ++ x :: R2)) ->
  count doc root (Some (e_path x)) ca = stepc root ca x + weight root ca R1.
Proof.
  intros Hs Hp Hn Hnd.
  assert (Hseek : seek (e_path x) (subtree doc root) = Some (r :: R1, x)).
  { rewrite Hs; change (r :: R1 ++ x :: R2) with ((r :: R1) ++ x :: R2).
    apply seek_app; [|reflexivity].
    change (r :: R1 ++ x :: R2) with ((r :: R1) ++ x :: R2) in Hnd.
    rewrite map_app, !map_cons in Hnd.
    apply NoDup_remove_2 in Hnd; intro Hin; apply Hnd, in_or_app; left; exact Hin. }
  rewrite (count_seek_eq _ _ _ _ _ Hseek); unfold count_visits; rewrite Hseek.
  rewrite count_loop_sum; cbn [map list_sum fold_right].
  rewrite count_step_self; unfold previousNodes; rewrite list_sum_map_rev.
  assert (Hne : Forall (fun e => e_path e <> e_path x) (r :: R1)).
  { change (r :: R1 ++ x :: R2) with ((r :: R1) ++ x :: R2) in Hnd.
    rewrite map_app, !map_cons in Hnd.
    apply NoDup_remove_2 in Hnd; apply Forall_forall; intros e He Heq.
    apply Hnd, in_or_app; left; rewrite <- Heq; exact (in_map e_path (r :: R1) e He). }
  rewrite (map_ext_in _ (count_step root None ca)); cycle 1.
  { intros e He; apply filter_In in He as [He _].
    apply count_step_other; rewrite Forall_forall in Hne; apply Hne, He. }
  change (list_sum (map (count_step root None ca) (List.filter (accepts ca) (r :: R1))))
    with (weight root ca ([r] ++ R1)).
  rewrite weight_app, weight_one.
  unfold stepc, textc; rewrite Hp, Hn, path_eqb_refl; simpl.
  destruct (accepts ca r); simpl; lia.
Qed.

(** The walk of [uncount] stops at a node [x] with [count] up to [x]
    plus the offset left equal to the requested offset. *)
Lemma resolve_count doc root ca n x o :
  n <= count doc root None ca ->
  resolve doc root n ca = Some (x, o) ->
  count doc root (Some (e_path x)) ca + o = n.
Proof.
  intros Hle Hres.
  destruct (subtree_shape doc root) as [Hs | (t & nx & _ & Hs & Hnd)].
  { unfold resolve in Hres; rewrite Hs in Hres; discriminate. }
  rewrite <- Hs in Hnd.
  destruct t as [tg ks | str].
  - rewrite pre_Element in Hs.
    set (r := mkEntry root (Element tg ks) nx) in *.
    set (R := pre_kids root 0 ks) in *.
    unfold resolve in Hres; rewrite Hs in Hres; simpl in Hres.
    injection Hres as Hres.
    rewrite Hs in Hnd; simpl in Hnd.
    assert (HR : Forall (fun e => e_path e <> root) R).
    { apply Forall_forall; intros e He Heq; inversion Hnd as [|? ? Hni _]; apply Hni.
      rewrite <- Heq; apply in_map; exact He. }
    rewrite (count_total doc root ca tg ks r R Hs eq_refl eq_refl) in Hle.
    unfold nextNodes in Hres; simpl tl in Hres.
    destruct (uncount_loop_inv root ca n R [] r n 0 x o HR) as [_ [[-> Ho] | (R1 & R2 & HR12 & _ & Ho)]];
      [unfold weight; simpl; lia | exact Hle | | | exact Hres | |].
    + unfold stepc, textc, weight; simpl; rewrite path_eqb_refl; reflexivity.
    + unfold textc; simpl; lia.
    + assert (Hseek : seek (e_path r) (subtree doc root) = Some ([], r))
        by (rewrite Hs; cbn [seek]; rewrite path_eqb_refl; reflexivity).
      rewrite (count_seek_eq _ _ _ _ _ Hseek); unfold count_visits; rewrite Hseek.
      simpl; unfold count_step; simpl; rewrite path_eqb_refl.
      unfold stepc in Ho; simpl in Ho; rewrite path_eqb_refl in Ho; simpl in Ho |- *; lia.
    + rewrite HR12 in Hs, Hnd.
      rewrite (count_at doc root ca tg ks r R1 x R2 Hs eq_refl eq_refl); [|simpl; exact Hnd].
      simpl in Ho; lia.
  - rewrite pre_Text in Hs.
    unfold resolve in Hres; rewrite Hs in Hres; simpl in Hres.
    injection Hres as <- <-.
    assert (Hseek : seek root (subtree doc root) = Some ([], mkEntry root (Text str) nx))
      by (rewrite Hs; simpl seek; rewrite path_eqb_refl; reflexivity).
    rewrite (count_seek_eq _ _ _ _ _ Hseek); unfold count_visits; rewrite Hseek.
    simpl; unfold count_step; simpl; rewrite path_eqb_refl; reflexivity.
Qed.

(** C1 (round trip).  For every root, every [countAll] and every [n] with
    [n <= count(root, null, countAll)], [uncount(root, n, countAll)]
    resolves back to [n]: [count(root, p.ref, countAll) + p.offset = n]
    for the returned position [p], except where [uncount] has replaced a
    [BR] it stopped at by the [BR]'s parent and child index plus one; in
    that case the round trip holds for the [BR] and the offset before
    that replacement. *)
Theorem count_uncount_roundtrip (doc : document) (root : path) (countAll : bool) (n : nat) :
  n <= count doc root None countAll ->
  let p := uncount doc root (Some n) countAll in
  count doc root (Some (ref p)) countAll + offset p = n \/
  exists x o, resolve doc root n countAll = Some (x, o) /\
    nodeName (e_node x) = "BR" /\
    p = mkPosition (removelast (e_path x)) (last (e_path x) 0 + 1) /\
    count doc root (Some (e_path x)) countAll + o = n.
Proof.
  intros Hle p; subst p; unfold uncount.
  destruct (resolve doc root n countAll) as [[x o]|] eqn:Hres.
  - pose proof (resolve_count doc root countAll n x o Hle Hres) as Hc.
    destruct (String.eqb (nodeName (e_node x)) "BR") eqn:Hbr.
    + right; exists x, o; apply String.eqb_eq in Hbr; repeat split; assumption.
    + left; exact Hc.
  - left; unfold resolve in Hres.
    destruct (subtree doc root) eqn:Hs; [|discriminate].
    unfold count, count_visits, reaches_document, count_outside in *; rewrite Hs in *; simpl in *; lia.
Qed.

Lemma count_uncount_roundtrip_witness :
  let doc := [Element "DIV" [Element "P" [Text "AB"]; Element "P" [Text "CD"]]] in
  4 <= count doc [0] None false /\
  (count doc [0] (Some (ref (uncount doc [0] (Some 4) false))) false
     + offset (uncount doc [0] (Some 4) false) = 4 \/
   exists x o, resolve doc [0] 4 false = Some (x, o) /\
     nodeName (e_node x) = "BR" /\
     uncount doc [0] (Some 4) false = mkPosition (removelast (e_path x)) (last (e_path x) 0 + 1) /\
     count doc [0] (Some (e_path x)) false + o = 4).
Proof.
  intro doc; split; [vm_compute; lia|].
  apply (count_uncount_roundtrip doc [0] false 4); vm_compute; lia.
Defined.

End RoundTrip.

Module Claims.
Import Dom Selektr Structure RoundTrip.

(** [count] up to any node [x] of [root]'s subtree: the step of [x] and
    what the accepted nodes before it add. *)
Lemma count_before doc root ca R1 x R2 :
  subtree doc root = R1 ++ x :: R2 ->
  NoDup (map e_path (R1 ++ x :: R2)) ->
  count doc root (Some (e_path x)) ca = stepc root ca x + weight root ca R1.
Proof.
  intros Hs Hnd.
  rewrite map_app, map_cons in Hnd; apply NoDup_remove_2 in Hnd.
  assert (Hseek : seek (e_path x) (subtree doc root) = Some (R1, x)).
  { rewrite Hs; apply seek_app; [|reflexivity].
    intro Hin; apply Hnd, in_or_app; left; exact Hin. }
  rewrite (count_seek_eq _ _ _ _ _ Hseek); unfold count_visits; rewrite Hseek.
  rewrite count_loop_sum; cbn [map list_sum fold_right].
  rewrite count_step_self; unfold previousNodes; rewrite list_sum_map_rev.
  rewrite (map_ext_in _ (count_step root None ca)); [unfold weight; lia|].
  intros e He; apply filter_In in He as [He _].
  apply count_step_other; intro Heq; apply Hnd, in_or_app; left.
  rewrite <- Heq; apply in_map; exact He.
Qed.

Lemma subtree_nodup doc root : NoDup (map e_path (subtree doc root)).
Proof.
  destruct (subtree_shape doc root) as [-> | (t & nx & _ & -> & H)]; [constructor|exact H].
Qed.

Lemma subtree_head doc root r R : subtree doc root = r :: R -> e_path r = root.
Proof.
  intro Hs; destruct (subtree_shape doc root) as [H | (t & nx & _ & H & _)]; rewrite Hs in H;
    [discriminate|].
  destruct (pre_head root nx t) as [rest Hr]; rewrite Hr in H; injection H as -> _; reflexivity.
Qed.

Lemma filter_rejects_non_br e :
  filter e = false -> nodeName (e_node e) <> "BR" -> isList (e_node e) = true.
Proof.
  unfold filter; intros Hf Hbr.
  destruct (isList (e_node e)); [reflexivity|].
  apply String.eqb_neq in Hbr; rewrite Hbr in Hf; discriminate.
Qed.

Lemma isList_not_significant t : isList t = true -> significant false t = false.
Proof.
  destruct t as [tg ks|s]; [|discriminate]; simpl; intro H.
  apply orb_true_iff in H as [H|H]; apply String.eqb_eq in H; subst tg; reflexivity.
Qed.



(** C3 (as stated: a [BR] rejected only before a list) fails: a [BR]
    without a next sibling is rejected too. *)
Lemma filter_trailing_br_counterexample :
  let e := mkEntry [0; 0] (Element "BR" []) None in
  ~ (filter e = true <->
     isList (e_node e) = false /\
     ~ (nodeName (e_node e) = "BR" /\ exists s, e_next e = Some s /\ isList s = true)).
Proof.
  intros e [_ H].
  assert (Hf : filter e = true).
  { apply H; split; [reflexivity|]; intros [_ (s & Hs & _)]; discriminate Hs. }
  discriminate Hf.
Qed.

(** C3 (amended).  In default mode the filter rejects list containers
    ([UL], [OL]) and a [BR] that has no next sibling or whose next
    sibling is a list container, and accepts every other node; a node
    other than [root] that it rejects is not visited by
    [count(root)], so adds nothing to it. *)
Theorem filter_default_mode (e : entry) :
  (filter e = true <->
   isList (e_node e) = false /\
   ~ (nodeName (e_node e) = "BR" /\
      (e_next e = None \/ exists s, e_next e = Some s /\ isList s = true))) /\
  (forall doc root, filter e = false -> e_path e <> root ->
     ~ In e (count_visits doc root None false)).
Proof.
  split.
  - unfold filter; destruct (isList (e_node e)) eqn:HL; simpl.
    + split; [discriminate|intros [H _]; discriminate H].
    + destruct (String.eqb (nodeName (e_node e)) "BR") eqn:HB; simpl.
      * apply String.eqb_eq in HB.
        destruct (e_next e) as [s|] eqn:HN.
        -- destruct (isList s) eqn:Hs; simpl.
           ++ split; [discriminate|intros [_ H]; exfalso; apply H; split;
                 [exact HB|right; exists s; split; [reflexivity|exact Hs]]].
           ++ split; [intros _; split; [reflexivity|]|reflexivity].
              intros [_ [H|(s' & H & Hs')]]; [discriminate H|].
              injection H as <-; congruence.
        -- split; [discriminate|intros [_ H]; exfalso; apply H; split; [exact HB|left; reflexivity]].
      * apply String.eqb_neq in HB.
        split; [intros _; split; [reflexivity|intros [H _]; contradiction]|reflexivity].
  - intros doc root Hf Hr Hin; unfold count_visits, nextNodes in Hin.
    destruct (subtree doc root) as [|r rest] eqn:Hs; [exact Hin|].
    destruct Hin as [-> | Hin].
    + apply Hr, (subtree_head doc root e rest Hs).
    + apply filter_In in Hin as [_ Ha]; unfold accepts in Ha; simpl in Ha; congruence.
Qed.

Lemma filter_default_mode_witness :
  let doc := [Element "P" [Text "A"; Element "BR" []]] in
  let e := mkEntry [0; 1] (Element "BR" []) None in
  filter e = false /\ e_path e <> [0] /\ ~ In e (count_visits doc [0] None false).
Proof.
  intros doc e; split; [reflexivity|split; [discriminate|]].
  apply (proj2 (filter_default_mode e) doc [0]); [reflexivity|discriminate].
Defined.

Lemma subtree_of_node doc root t :
  node_at doc root = Some t -> exists nx, subtree doc root = pre root nx t.
Proof.
  unfold node_at, subtree; destruct (locate (html doc) None root) as [[t' nx]|]; simpl;
    intro H; [injection H as ->; eauto|discriminate].
Qed.

(** C5 (as stated: [uncount(root, 0)] is the first paragraph's Text node
    at offset 0) fails: it is [root] itself at offset 0. *)
Lemma two_paragraphs_counterexample :
  let doc := [Element "DIV" [Element "P" [Text "AB"]; Element "P" [Text "CD"]]] in
  node_at doc [0; 0; 0] = Some (Text "AB") /\
  count doc [0] None false = 6 /\
  uncount doc [0] (Some 0) false <> mkPosition [0; 0; 0] 0.
Proof. intro doc; split; [reflexivity|split; [reflexivity|]]; vm_compute; discriminate. Qed.

(** C5 (amended).  For a root (not a [BR]) whose children are two
    paragraphs holding one Text node each, [count(root)] is one step per
    paragraph plus the two text lengths, and [uncount(root, 0)] is [root]
    itself at offset 0: the walk stops at the first paragraph, a
    significant node met with nothing left to count, before moving past
    [root]. *)
Theorem two_paragraphs (doc : document) (root : path) (tg a b : string) :
  tg <> "BR" ->
  node_at doc root = Some (Element tg [Element "P" [Text a]; Element "P" [Text b]]) ->
  count doc root None false = 2 + String.length a + String.length b /\
  uncount doc root (Some 0) false = mkPosition root 0.
Proof.
  intros Htg Hn; destruct (subtree_of_node doc root _ Hn) as [nx Hs]; split.
  - rewrite count_None_eq; unfold count_visits; rewrite Hs; simpl.
    unfold count_step; cbn [e_path e_node]; rewrite path_eqb_refl, !path_eqb_neq; simpl; [lia| | | |].
    all: intro H; apply (f_equal (@List.length nat)) in H; rewrite !length_app in H; simpl in H; lia.
  - unfold uncount, resolve; rewrite Hs; simpl.
    apply String.eqb_neq in Htg; rewrite Htg; reflexivity.
Qed.

Lemma two_paragraphs_witness :
  let doc := [Element "DIV" [Element "P" [Text "AB"]; Element "P" [Text "CD"]]] in
  "DIV" <> "BR" /\
  node_at doc [0] = Some (Element "DIV" [Element "P" [Text "AB"]; Element "P" [Text "CD"]]) /\
  count doc [0] None false = 2 + String.length "AB" + String.length "CD" /\
  uncount doc [0] (Some 0) false = mkPosition [0] 0.
Proof.
  intro doc; split; [discriminate|split; [reflexivity|]].
  apply (two_paragraphs doc [0] "DIV" "AB" "CD"); [discriminate|reflexivity].
Defined.

(** C8.  [uncount] from a Text root does not walk: it returns the root
    and the offset unchanged (0 when the offset is absent). *)
Theorem uncount_text_root (doc : document) (root : path) (s : string) (off : option nat)
    (countAll : bool) :
  node_at doc root = Some (Text s) ->
  uncount doc root off countAll = mkPosition root (match off with Some n => n | None => 0 end) /\
  forall n, exists r, resolve doc root n countAll = Some (r, n) /\ e_path r = root.
Proof.
  intros Hn; destruct (subtree_of_node doc root _ Hn) as [nx Hs]; split.
  - unfold uncount, resolve; rewrite Hs; reflexivity.
  - intro n; exists (mkEntry root (Text s) nx); unfold resolve; rewrite Hs; split; reflexivity.
Qed.

Lemma uncount_text_root_witness :
  let doc := [Element "P" [Text "AB"]] in
  node_at doc [0; 0] = Some (Text "AB") /\
  (uncount doc [0; 0] (Some 5) false = mkPosition [0; 0] 5 /\
   forall n, exists r, resolve doc [0; 0] n false = Some (r, n) /\ e_path r = [0; 0]).
Proof.
  intro doc; split; [reflexivity|].
  apply (uncount_text_root doc [0; 0] "AB" (Some 5) false); reflexivity.
Defined.

(** C9 (as stated) fails in default mode: in [<p><br><ul></ul></p>] the
    [BR] precedes the [UL], but the [BR], skipped by the filter as it
    comes before a list, still adds its own step when it is [ref]. *)
Lemma count_monotone_counterexample :
  let doc := [Element "P" [Element "BR" []; Element "UL" []]] in
  precedes doc [0] [0; 0] [0; 1] /\
  count doc [0] (Some [0; 1]) false < count doc [0] (Some [0; 0]) false.
Proof.
  intro doc; split.
  - exists [mkEntry [0] (Element "P" [Element "BR" []; Element "UL" []]) None],
      (mkEntry [0; 0] (Element "BR" []) (Some (Element "UL" []))), [],
      (mkEntry [0; 1] (Element "UL" []) None), [].
    split; [reflexivity|split; reflexivity].
  - vm_compute; lia.
Qed.

(** C9 (amended).  [count] is monotone in document order when [countAll]
    is set, and in default mode whenever [A] is not a [BR] rejected by
    the filter. *)
Theorem count_monotone (doc : document) (root a b : path) (countAll : bool) :
  precedes doc root a b ->
  (countAll = true \/
   forall x, In x (subtree doc root) -> e_path x = a ->
     filter x = true \/ nodeName (e_node x) <> "BR") ->
  count doc root (Some a) countAll <= count doc root (Some b) countAll.
Proof.
  intros (R1 & x & R2 & y & R3 & Hs & <- & <-) Hcond.
  pose proof (subtree_nodup doc root) as Hnd; rewrite Hs in Hnd.
  rewrite (count_before doc root countAll R1 x (R2 ++ y :: R3) Hs Hnd).
  assert (Hs' : subtree doc root = (R1 ++ x :: R2) ++ y :: R3) by (rewrite Hs, <- app_assoc; reflexivity).
  rewrite (count_before doc root countAll (R1 ++ x :: R2) y R3 Hs'); [|rewrite <- Hs'; apply subtree_nodup].
  rewrite weight_app; change (x :: R2) with ([x] ++ R2); rewrite weight_app, weight_one.
  destruct (accepts countAll x) eqn:Ha; [lia|].
  assert (Hstep : stepc root countAll x = 0); [|lia].
  unfold accepts in Ha; apply orb_false_iff in Ha as [Hca Hf]; subst countAll.
  destruct Hcond as [Hc|Hc]; [discriminate|].
  destruct (Hc x) as [Hx|Hx]; [rewrite Hs; apply in_or_app; right; left; reflexivity|reflexivity|congruence|].
  unfold stepc; rewrite (isList_not_significant _ (filter_rejects_non_br x Hf Hx)).
  rewrite andb_false_r; reflexivity.
Qed.

Lemma count_monotone_witness :
  let doc := [Element "P" [Text "A"; Text "B"]] in
  precedes doc [0] [0; 0] [0; 1] /\
  count doc [0] (Some [0; 0]) true <= count doc [0] (Some [0; 1]) true.
Proof.
  intro doc.
  assert (Hp : precedes doc [0] [0; 0] [0; 1]).
  { exists [mkEntry [0] (Element "P" [Text "A"; Text "B"]) None],
      (mkEntry [0; 0] (Text "A") (Some (Text "B"))), [], (mkEntry [0; 1] (Text "B") None), [].
    split; [reflexivity|split; reflexivity]. }
  split; [exact Hp|].
  apply (count_monotone doc [0] [0; 0] [0; 1] true Hp); left; reflexivity.
Defined.

End Claims.

(** Paths of subtree entries resolve to their nodes; resolved positions
    are nodes of the document. *)
Module Paths.
Import Dom Selektr Structure RoundTrip Claims.

Lemma locate_app t nx p q :
  locate t nx (p ++ q) =
  match locate t nx p with Some (t', nx') => locate t' nx' q | None => None end.
Proof.
  revert t nx; induction p as [|i p IH]; intros t nx; simpl; [reflexivity|].
  destruct t as [tg ks|s]; [|reflexivity].
  destruct (nth_error ks i); [apply IH|reflexivity].
Qed.

Definition pre_loc (t : tree) : Prop :=
  forall p nx e, In e (pre p nx t) ->
    exists s, e_path e = p ++ s /\ locate t nx s = Some (e_node e, e_next e).

Lemma kids_loc tg all p ks : forall pre_ks,
  Forall pre_loc ks -> all = pre_ks ++ ks ->
  forall nx e, In e (kids_of pre p (List.length pre_ks) ks) ->
    exists s, e_path e = p ++ s /\ locate (Element tg all) nx s = Some (e_node e, e_next e).
Proof.
  induction ks as [|k ks IH]; intros pre_ks Hf Hall nx e Hin; simpl in Hin; [contradiction|].
  apply Forall_cons_iff in Hf as [Hk Hf].
  apply in_app_or in Hin as [Hin|Hin].
  - destruct (Hk _ _ _ Hin) as (s & Hs & Hl).
    exists (List.length pre_ks :: s); split; [rewrite Hs, <- app_assoc; reflexivity|].
    assert (H1 : nth_error all (List.length pre_ks) = Some k)
      by (rewrite Hall, nth_error_app2, Nat.sub_diag by lia; reflexivity).
    assert (H2 : nth_error all (S (List.length pre_ks)) = hd_error ks).
    { rewrite Hall, nth_error_app2 by lia.
      replace (S (List.length pre_ks) - List.length pre_ks) with 1 by lia.
      destruct ks; reflexivity. }
    cbn [locate]; rewrite H1, H2; exact Hl.
  - apply (IH (pre_ks ++ [k])); [exact Hf | rewrite Hall, <- app_assoc; reflexivity | ].
    rewrite length_app; simpl; rewrite Nat.add_1_r; exact Hin.
Qed.

Lemma pre_all_loc t : pre_loc t.
Proof.
  induction t as [s|tg ks Hks] using tree_ind'; intros p nx e Hin.
  - rewrite pre_Text in Hin; destruct Hin as [<-|[]].
    exists []; rewrite app_nil_r; split; reflexivity.
  - rewrite pre_Element in Hin; destruct Hin as [<-|Hin].
    + exists []; rewrite app_nil_r; split; reflexivity.
    + exact (kids_loc tg ks p ks [] Hks eq_refl nx e Hin).
Qed.

Lemma subtree_node_at doc root e :
  In e (subtree doc root) -> node_at doc (e_path e) = Some (e_node e).
Proof.
  unfold subtree, node_at; destruct (locate (html doc) None root) as [[t nx]|] eqn:Hl;
    [|intros []].
  intro Hin; destruct (pre_all_loc t root nx e Hin) as (s & -> & Hs).
  rewrite locate_app, Hl, Hs; reflexivity.
Qed.

(** A node other than [<html>] has an Element parent, in which its index
    is below the child count. *)
Lemma node_at_parent doc q t :
  node_at doc q = Some t -> q <> [] ->
  exists tg ks, node_at doc (removelast q) = Some (Element tg ks) /\ last q 0 < List.length ks.
Proof.
  intros Hq Hne; destruct (exists_last Hne) as (q' & i & ->).
  rewrite removelast_last, last_last.
  unfold node_at in *; rewrite locate_app in Hq.
  destruct (locate (html doc) None q') as [[t' nx']|]; [|discriminate].
  destruct t' as [tg ks|s]; simpl in Hq; [|discriminate].
  destruct (nth_error ks i) eqn:Hi; [|discriminate].
  exists tg, ks; split; [reflexivity|]; apply nth_error_Some; congruence.
Qed.

(** [<html>] is not a [BR]. *)
Lemma br_not_html doc q t :
  node_at doc q = Some t -> String.eqb (nodeName t) "BR" = true -> q <> [].
Proof.
  intros Hq Hbr ->; unfold node_at in Hq; simpl in Hq; injection Hq as <-.
  simpl in Hbr; discriminate.
Qed.

Lemma uncount_loop_in ca L : forall cur off x o,
  uncount_loop ca L cur off = (x, o) -> x = cur \/ In x L.
Proof.
  induction L as [|y L IH]; intros cur off x o H; simpl in H.
  - injection H as <- _; left; reflexivity.
  - destruct (significant ca (e_node y) && Nat.eqb off 0); [injection H as <- _; left; reflexivity|].
    destruct (e_node y) as [tg ks|s].
    + destruct (IH _ _ _ _ H) as [->|Hin]; right; [left; reflexivity|right; exact Hin].
    + destruct (Nat.ltb _ _).
      * destruct (IH _ _ _ _ H) as [->|Hin]; right; [left; reflexivity|right; exact Hin].
      * injection H as <- _; right; left; reflexivity.
Qed.

Lemma resolve_in doc root n ca x o :
  resolve doc root n ca = Some (x, o) -> In x (subtree doc root).
Proof.
  unfold resolve; destruct (subtree doc root) as [|r R] eqn:Hs; [discriminate|].
  intro H; injection H as H.
  destruct (Nat.eqb (nodeType (e_node r)) 1).
  - destruct (uncount_loop_in _ _ _ _ _ _ H) as [->|Hin]; [left; reflexivity|].
    right; unfold nextNodes in Hin; simpl in Hin; apply filter_In in Hin as [Hin _]; exact Hin.
  - injection H as -> _; left; reflexivity.
Qed.

(** From an Element root and within [count(root)], the walk stops with
    an offset no larger than the length of the Text node reached, and
    with offset 0 at an Element. *)
Lemma resolve_bound doc root tg ks ca n x o :
  node_at doc root = Some (Element tg ks) ->
  n <= count doc root None ca ->
  resolve doc root n ca = Some (x, o) -> o <= textc x.
Proof.
  intros Hn Hle Hres.
  destruct (subtree_of_node doc root _ Hn) as [nx Hs].
  pose proof (subtree_nodup doc root) as Hnd.
  rewrite pre_Element in Hs.
  set (r := mkEntry root (Element tg ks) nx) in *.
  set (R := pre_kids root 0 ks) in *.
  rewrite Hs in Hnd; simpl in Hnd.
  assert (HR : Forall (fun e => e_path e <> root) R).
  { apply Forall_forall; intros e He Heq; inversion Hnd as [|? ? Hni _]; apply Hni.
    rewrite <- Heq; apply in_map; exact He. }
  rewrite (count_total doc root ca tg ks r R Hs eq_refl eq_refl) in Hle.
  unfold resolve in Hres; rewrite Hs in Hres; simpl in Hres; injection Hres as Hres.
  unfold nextNodes in Hres; simpl tl in Hres.
  destruct (uncount_loop_inv root ca n R [] r n 0 x o HR) as [Hox _];
    [unfold weight; simpl; lia | exact Hle | | | exact Hres | exact Hox].
  - unfold stepc, textc, weight; simpl; rewrite path_eqb_refl; reflexivity.
  - unfold textc; simpl; lia.
Qed.

(** [uncount] from a node returns a node. *)
Lemma uncount_ref_node doc root n ca :
  node_at doc root <> None -> node_at doc (ref (uncount doc root (Some n) ca)) <> None.
Proof.
  intro Hn; unfold uncount.
  destruct (resolve doc root n ca) as [[x o]|] eqn:Hres; [|exact Hn].
  pose proof (subtree_node_at doc root x (resolve_in doc root n ca x o Hres)) as Hx.
  destruct (String.eqb (nodeName (e_node x)) "BR") eqn:Hbr; simpl.
  - destruct (node_at_parent doc (e_path x) (e_node x) Hx (br_not_html _ _ _ Hx Hbr))
      as (tg & ks & Hpar & _).
    rewrite Hpar; discriminate.
  - rewrite Hx; discriminate.
Qed.

End Paths.

(** Claims about the selection functions of the module. *)
Module HostClaims.
Import Dom Selektr Structure RoundTrip Claims Paths Host.

Lemma node_of_at doc q t : node_at doc q = Some t -> node_of doc q = Ok t.
Proof. unfold node_of; intros ->; reflexivity. Qed.

(** The bounds check of [set] on a node: the offset against the child
    count of an Element, against the text length otherwise. *)
Lemma exceeds_at doc p t :
  node_at doc (ref p) = Some t ->
  exceeds doc p = Ok (if Nat.eqb (nodeType t) 1 then Nat.ltb (childCount t) (Selektr.offset p)
                      else Nat.ltb (textLength t) (Selektr.offset p)).
Proof. intro H; unfold exceeds; rewrite (node_of_at _ _ _ H); reflexivity. Qed.

Lemma exceeds_node doc p :
  node_at doc (ref p) <> None -> exists b, exceeds doc p = Ok b.
Proof.
  destruct (node_at doc (ref p)) as [t|] eqn:H; [|congruence].
  intros _; eexists; exact (exceeds_at _ _ _ H).
Qed.

(** The boundaries [set] resolves are nodes when the given ones are. *)
Lemma boundaries_nodes doc positions shouldUncount start end_ :
  Forall (fun q => node_at doc q <> None) (position_refs positions) ->
  set_boundaries doc positions shouldUncount = (start, end_) ->
  node_at doc (ref start) <> None /\ node_at doc (ref end_) <> None.
Proof.
  intros Hf Hb.
  assert (Hr : forall p, node_at doc (ref p) <> None ->
            node_at doc (ref (match shouldUncount with
                              | Some false => p
                              | _ => uncount doc (ref p) (Some (Selektr.offset p)) false
                              end)) <> None).
  { intros p Hp; destruct shouldUncount as [[|]|]; [apply uncount_ref_node; exact Hp|exact Hp|
      apply uncount_ref_node; exact Hp]. }
  destruct positions as [p|s [e|]]; simpl in Hf, Hb; injection Hb as <- <-;
    repeat (apply Forall_cons_iff in Hf as [? Hf]); split; apply Hr; assumption.
Qed.

(** C10 (as stated) fails: in [<div><span></span><span></span><br><p></p></div>]
    with root the [DIV], [uncount(root, 1)] is [(div, 3)], within the
    [DIV]'s four children, but [set] of that position resolves it again
    through [uncount(div, 3)] to [(p, 1)], beyond the empty [P]'s child
    count, and leaves the selection as it was. *)
Lemma uncount_set_counterexample :
  let h := mkHost [Element "DIV" [Element "SPAN" []; Element "SPAN" []; Element "BR" [];
                                  Element "P" []]]
                  (mkSelection [] None) None [] in
  let p := uncount (h_doc h) [0] (Some 1) false in
  1 <= count (h_doc h) [0] None false /\
  p = mkPosition [0] 3 /\
  exceeds (h_doc h) p = Ok false /\
  set h (OnePosition p) None = Ok (h_sel h) /\
  h_sel h <> install (h_sel h) p p.
Proof.
  intros h p; split; [vm_compute; lia|].
  split; [vm_compute; reflexivity|].
  split; [vm_compute; reflexivity|].
  split; [vm_compute; reflexivity|].
  vm_compute; discriminate.
Qed.

(** C10 (amended).  From an Element root and for [n <= count(root)],
    [uncount(root, n, countAll)] is within its [ref]'s bounds: [set]'s
    bounds check does not reject it, and [set(position, false)], which
    takes the position as given, installs it. *)
Theorem uncount_position_valid (h : Host) (root : path) (tg : string) (ks : list tree)
    (countAll : bool) (n : nat) :
  node_at (h_doc h) root = Some (Element tg ks) ->
  n <= count (h_doc h) root None countAll ->
  let p := uncount (h_doc h) root (Some n) countAll in
  exceeds (h_doc h) p = Ok false /\
  set h (OnePosition p) (Some false) = Ok (install (h_sel h) p p).
Proof.
  intros Hn Hle p.
  assert (Hex : exceeds (h_doc h) p = Ok false).
  { unfold p, uncount.
    destruct (resolve (h_doc h) root n countAll) as [[x o]|] eqn:Hres.
    2:{ destruct (subtree_of_node _ _ _ Hn) as [nx Hs].
        unfold resolve in Hres; rewrite Hs, pre_Element in Hres; discriminate. }
    pose proof (subtree_node_at _ _ x (resolve_in _ _ _ _ _ _ Hres)) as Hx.
    pose proof (resolve_bound _ _ _ _ _ _ _ _ Hn Hle Hres) as Ho.
    destruct (String.eqb (nodeName (e_node x)) "BR") eqn:Hbr.
    - destruct (node_at_parent _ _ _ Hx (br_not_html _ _ _ Hx Hbr)) as (tg' & ks' & Hpar & Hlt).
      rewrite (exceeds_at _ (mkPosition (removelast (e_path x)) (last (e_path x) 0 + 1)) _ Hpar); cbn [nodeType Nat.eqb childCount Selektr.offset].
      f_equal; apply Nat.ltb_ge; lia.
    - rewrite (exceeds_at _ (mkPosition (e_path x) o) _ Hx); cbn [Selektr.offset].
      unfold textc in Ho; destruct (e_node x) as [tg' ks'|s]; cbn [nodeType Nat.eqb];
        f_equal; apply Nat.ltb_ge; simpl; lia. }
  split; [exact Hex|].
  clearbody p; unfold set; cbn [set_boundaries].
  rewrite Hex; reflexivity.
Qed.

Lemma uncount_position_valid_witness :
  let h := mkHost [Element "DIV" [Element "SPAN" []; Element "SPAN" []; Element "BR" [];
                                  Element "P" []]]
                  (mkSelection [] None) None [] in
  (node_at (h_doc h) [0] = Some (Element "DIV" [Element "SPAN" []; Element "SPAN" [];
                                                 Element "BR" []; Element "P" []]) /\
   1 <= count (h_doc h) [0] None false) /\
  (exceeds (h_doc h) (uncount (h_doc h) [0] (Some 1) false) = Ok false /\
   set h (OnePosition (uncount (h_doc h) [0] (Some 1) false)) (Some false) =
   Ok (install (h_sel h) (uncount (h_doc h) [0] (Some 1) false)
               (uncount (h_doc h) [0] (Some 1) false))).
Proof.
  intro h; split; [split; [reflexivity|vm_compute; lia]|].
  apply (uncount_position_valid h [0] "DIV"
           [Element "SPAN" []; Element "SPAN" []; Element "BR" []; Element "P" []] false 1);
    [reflexivity|vm_compute; lia].
Defined.

(** C6.  When the [ref]s given to [set] are nodes, both resolved
    boundaries pass through the bounds check without failing, and [set]
    leaves the selection unchanged when either is out of bounds and
    installs the range of the two boundaries otherwise. *)
Theorem set_bounds (h : Host) (positions : Positions) (shouldUncount : option bool)
    (start end_ : Position) :
  Forall (fun q => node_at (h_doc h) q <> None) (position_refs positions) ->
  set_boundaries (h_doc h) positions shouldUncount = (start, end_) ->
  exists bs be,
    exceeds (h_doc h) start = Ok bs /\ exceeds (h_doc h) end_ = Ok be /\
    set h positions shouldUncount =
      Ok (if bs || be then h_sel h else install (h_sel h) start end_).
Proof.
  intros Hf Hb.
  destruct (boundaries_nodes _ _ _ _ _ Hf Hb) as [Hs He].
  destruct (exceeds_node _ _ Hs) as [bs Hbs]; destruct (exceeds_node _ _ He) as [be Hbe].
  exists bs, be; split; [exact Hbs|split; [exact Hbe|]].
  unfold set; rewrite Hb, Hbs; cbn [bind].
  destruct bs; [reflexivity|]; rewrite Hbe; cbn [bind]; destruct be; reflexivity.
Qed.

Lemma set_bounds_witness :
  let h := mkHost [Element "P" [Text "AB"]] (mkSelection [] None) None [] in
  (Forall (fun q => node_at (h_doc h) q <> None) (position_refs (OnePosition (mkPosition [0; 0] 5))) /\
   set_boundaries (h_doc h) (OnePosition (mkPosition [0; 0] 5)) None =
     (mkPosition [0; 0] 5, mkPosition [0; 0] 5)) /\
  exists bs be,
    exceeds (h_doc h) (mkPosition [0; 0] 5) = Ok bs /\ exceeds (h_doc h) (mkPosition [0; 0] 5) = Ok be /\
    set h (OnePosition (mkPosition [0; 0] 5)) None =
      Ok (if bs || be then h_sel h else install (h_sel h) (mkPosition [0; 0] 5) (mkPosition [0; 0] 5)).
Proof.
  intro h.
  assert (Hf : Forall (fun q => node_at (h_doc h) q <> None)
                 (position_refs (OnePosition (mkPosition [0; 0] 5)))).
  { constructor; [vm_compute; discriminate|constructor]. }
  assert (Hb : set_boundaries (h_doc h) (OnePosition (mkPosition [0; 0] 5)) None =
                 (mkPosition [0; 0] 5, mkPosition [0; 0] 5)) by (vm_compute; reflexivity).
  split; [split; [exact Hf|exact Hb]|].
  exact (set_bounds h _ None _ _ Hf Hb).
Defined.

Lemma bind_not_invalid {A B : Type} (m : result A) (k : A -> result B) :
  m <> Err InvalidCaret -> (forall a, k a <> Err InvalidCaret) -> bind m k <> Err InvalidCaret.
Proof.
  intros Hm Hk; destruct m as [a|e]; simpl; [apply Hk|].
  intro He; apply Hm; injection He as ->; reflexivity.
Qed.

Lemma getRangeAt0_not_invalid sel : getRangeAt0 sel <> Err InvalidCaret.
Proof. unfold getRangeAt0; destruct (ranges sel); discriminate. Qed.

Lemma node_of_not_invalid doc q : node_of doc q <> Err InvalidCaret.
Proof. unfold node_of; destruct (node_at doc q); discriminate. Qed.

(** [offset] only fails through the host. *)
Lemma offset_not_invalid h element caret countAll :
  offset h element caret countAll <> Err InvalidCaret.
Proof.
  unfold offset; apply bind_not_invalid; [apply getRangeAt0_not_invalid|intro rng].
  apply bind_not_invalid.
  { destruct element; [discriminate|destruct (closest _ _); discriminate]. }
  intro el; apply bind_not_invalid; [apply node_of_not_invalid|intro t].
  apply bind_not_invalid; [|intros; discriminate].
  destruct (_ && _); [|discriminate].
  apply bind_not_invalid; [apply node_of_not_invalid|intros; discriminate].
Qed.

Lemma get_caret_not_invalid h c element countAll :
  get_caret h c element countAll <> Err InvalidCaret.
Proof.
  unfold get_caret.
  assert (Hgen : bind (if truthy element
                       then match element with JNode p => Ok p | _ => Err HostError end
                       else match h_element h with Some p => Ok p | None => Ok (h_body h) end)
                      (fun el => bind (offset h (Some el) (Some c) (truthy countAll))
                                      (fun off => Ok (mkPosition el off))) <> Err InvalidCaret).
  { apply bind_not_invalid.
    - destruct (truthy element); [destruct element; discriminate|destruct (h_element h); discriminate].
    - intro el; apply bind_not_invalid; [apply offset_not_invalid|intros; discriminate]. }
  destruct element as [| |[|]| | |]; try exact Hgen.
  apply bind_not_invalid; [apply getRangeAt0_not_invalid|intros; discriminate].
Qed.

(** C7 (as stated: a non-string caret other than a boolean raises) fails:
    a string caret other than ['start'] and ['end'] raises the module's
    error, and a non-string caret such as [0] does not (it is taken as
    the [element] of [get('end', caret, element)]). *)
Lemma get_caret_counterexample :
  let h := mkHost [Element "P" [Text "AB"]] (mkSelection [mkRange [0; 0] 1 [0; 0] 1] None) None [] in
  get h (JString "middle") JUndefined JUndefined = Err InvalidCaret /\
  get h (JNumber 0) JUndefined JUndefined <> Err InvalidCaret.
Proof. intro h; split; [reflexivity|vm_compute; discriminate]. Qed.

(** C7 (amended).  [get] raises its invalid-argument error exactly when
    [caret] is a string other than ['start'] and ['end']; any other
    failure of [get] is a failure of the host. *)
Theorem get_invalid_caret (h : Host) (caret element countAll : jsval) :
  get h caret element countAll = Err InvalidCaret <->
  exists s, caret = JString s /\ s <> "start" /\ s <> "end".
Proof.
  split.
  - destruct caret as [| |b|z|s|q]; cbn [get];
      try (intro H; exfalso; revert H; apply bind_not_invalid;
           [apply get_caret_not_invalid|intro e; apply bind_not_invalid;
            [apply getRangeAt0_not_invalid|intro rng; apply bind_not_invalid;
             [destruct (collapsed rng); [discriminate|apply get_caret_not_invalid]
             |intros; discriminate]]]).
    destruct (String.eqb s "start") eqn:E1.
    { intro H; exfalso; revert H; apply bind_not_invalid;
        [apply get_caret_not_invalid|intros; discriminate]. }
    destruct (String.eqb s "end") eqn:E2.
    { intro H; exfalso; revert H; apply bind_not_invalid;
        [apply get_caret_not_invalid|intros; discriminate]. }
    intros _; exists s; split; [reflexivity|].
    split; apply String.eqb_neq; assumption.
  - intros (s & -> & H1 & H2); cbn [get].
    rewrite (proj2 (String.eqb_neq _ _) H1), (proj2 (String.eqb_neq _ _) H2); reflexivity.
Qed.

(** C4 (as stated: partial containment only when [partlyContained] is
    given) fails for Text nodes: in [<p>ABCD</p>] with the selection
    [B..C] inside the Text node, [contains(text, false)] is [true] though
    the Text node is not fully contained ([rangeStart = 2 > 1 =
    startOffset]); [partlyContained] is forced on for Text nodes. *)
Lemma contains_text_counterexample :
  let h := mkHost [Element "P" [Text "ABCD"]] (mkSelection [mkRange [0; 0] 1 [0; 0] 3] None) None [] in
  contains h [0; 0] false = Ok true /\
  offset h (Some [0]) (Some Start) true = Ok 2 /\
  offset h (Some [0]) (Some End) true = Ok 4 /\
  count (h_doc h) [0] (Some [0; 0]) true = 1 /\
  textLength (Text "ABCD") = 4 /\
  ~ (2 <= 1 /\ 1 + 4 <= 4).
Proof.
  intro h; split; [vm_compute; reflexivity|].
  split; [vm_compute; reflexivity|].
  split; [vm_compute; reflexivity|].
  split; [vm_compute; reflexivity|].
  split; [reflexivity|lia].
Qed.

(** C4 (amended).  In the fallback of [contains] (no native
    [containsNode], [node] within the Element [element] around the common
    ancestor), with [rs], [re] the selection's offsets and [so], [eo] the
    node's offsets relative to [element], the result is [true] exactly
    when [rs <= so] and [eo <= re], or, when [partlyContained] is set or
    [node] is a Text node, [rs] or [re] lies in the closed interval
    [[so, eo]]. *)
Theorem contains_fallback (h : Host) (node : path) (partlyContained : bool) (t : tree)
    (rng : Range) (ct : tree) (element : path) (rs re : nat) :
  node_at (h_doc h) node = Some t ->
  containsNode (h_sel h) = None ->
  getRangeAt0 (h_sel h) = Ok rng ->
  node_at (h_doc h) (commonAncestorContainer rng) = Some ct ->
  element = (if Nat.eqb (nodeType ct) 1 then commonAncestorContainer rng
             else removelast (commonAncestorContainer rng)) ->
  is_prefix element node = true ->
  offset h (Some element) (Some Start) true = Ok rs ->
  offset h (Some element) (Some End) true = Ok re ->
  let so := count (h_doc h) element (Some node) true in
  let eo := if Nat.eqb (nodeType t) 1 then so + 1 + count (h_doc h) node None true
            else so + textLength t in
  exists b, contains h node partlyContained = Ok b /\
    (b = true <->
     (rs <= so /\ eo <= re) \/
     ((partlyContained = true \/ nodeType t = 3) /\
      ((so <= rs /\ rs <= eo) \/ (so <= re /\ re <= eo)))).
Proof.
  intros Ht Hcn Hr Hct Hel Hpre Hrs Hre; cbv zeta.
  unfold contains; cbv zeta.
  rewrite (node_of_at _ _ _ Ht); cbn [bind].
  rewrite Hcn, Hr; cbn [bind].
  rewrite (node_of_at _ _ _ Hct); cbn [bind].
  rewrite <- Hel, Hpre, andb_false_r; cbv iota.
  rewrite Hrs, Hre; cbn [bind].
  eexists; split; [reflexivity|].
  set (so := count (h_doc h) element (Some node) true).
  set (c := count (h_doc h) node None true).
  rewrite !orb_true_iff, !andb_true_iff, !orb_true_iff, !andb_true_iff, !Nat.leb_le.
  destruct t as [tg ks|str]; cbn [nodeType Nat.eqb];
    [destruct partlyContained|]; split; intro H; try lia;
    repeat match goal with
           | H : _ /\ _ |- _ => destruct H
           | H : _ \/ _ |- _ => destruct H
           end; try discriminate; try lia; auto.
Qed.

Lemma contains_fallback_witness :
  let h := mkHost [Element "P" [Text "ABCD"]] (mkSelection [mkRange [0; 0] 1 [0; 0] 3] None) None [] in
  (node_at (h_doc h) [0; 0] = Some (Text "ABCD") /\
   containsNode (h_sel h) = None /\
   getRangeAt0 (h_sel h) = Ok (mkRange [0; 0] 1 [0; 0] 3) /\
   node_at (h_doc h) (commonAncestorContainer (mkRange [0; 0] 1 [0; 0] 3)) = Some (Text "ABCD") /\
   [0] = (if Nat.eqb (nodeType (Text "ABCD")) 1 then commonAncestorContainer (mkRange [0; 0] 1 [0; 0] 3)
          else removelast (commonAncestorContainer (mkRange [0; 0] 1 [0; 0] 3))) /\
   is_prefix [0] [0; 0] = true /\
   offset h (Some [0]) (Some Start) true = Ok 2 /\
   offset h (Some [0]) (Some End) true = Ok 4) /\
  exists b, contains h [0; 0] false = Ok b /\
    (b = true <->
     (2 <= count (h_doc h) [0] (Some [0; 0]) true /\
      (if Nat.eqb (nodeType (Text "ABCD")) 1
       then count (h_doc h) [0] (Some [0; 0]) true + 1 + count (h_doc h) [0; 0] None true
       else count (h_doc h) [0] (Some [0; 0]) true + textLength (Text "ABCD")) <= 4) \/
     ((false = true \/ nodeType (Text "ABCD") = 3) /\
      ((count (h_doc h) [0] (Some [0; 0]) true <= 2 /\
        2 <= (if Nat.eqb (nodeType (Text "ABCD")) 1
              then count (h_doc h) [0] (Some [0; 0]) true + 1 + count (h_doc h) [0; 0] None true
              else count (h_doc h) [0] (Some [0; 0]) true + textLength (Text "ABCD"))) \/
       (count (h_doc h) [0] (Some [0; 0]) true <= 4 /\
        4 <= (if Nat.eqb (nodeType (Text "ABCD")) 1
              then count (h_doc h) [0] (Some [0; 0]) true + 1 + count (h_doc h) [0; 0] None true
              else count (h_doc h) [0] (Some [0; 0]) true + textLength (Text "ABCD")))))).
Proof.
  intro h.
  split; [repeat split; vm_compute; reflexivity|].
  exact (contains_fallback h [0; 0] false (Text "ABCD") (mkRange [0; 0] 1 [0; 0] 3) (Text "ABCD") [0] 2 4
           ltac:(reflexivity) ltac:(reflexivity) ltac:(reflexivity) ltac:(reflexivity)
           ltac:(reflexivity) ltac:(reflexivity) ltac:(vm_compute; reflexivity)
           ltac:(vm_compute; reflexivity)).
Defined.

End HostClaims.

(** Further properties of [count], [uncount] and the selection functions. *)
Module Extras.
Import Dom Selektr Structure RoundTrip Claims Paths Host HostClaims Api.

Lemma is_prefix_app p r : is_prefix p (p ++ r) = true.
Proof. induction p as [|i p IH]; simpl; [reflexivity|rewrite Nat.eqb_refl; exact IH]. Qed.

Lemma is_prefix_inv p q : is_prefix p q = true -> exists r, q = p ++ r.
Proof.
  revert q; induction p as [|i p IH]; intros q H; [exists q; reflexivity|].
  destruct q as [|j q]; simpl in H; [discriminate|].
  apply andb_true_iff in H as [Hij H]; apply Nat.eqb_eq in Hij; subst j.
  destruct (IH q H) as [r ->]; exists r; reflexivity.
Qed.

Lemma subtree_path doc root e : In e (subtree doc root) -> exists s, e_path e = root ++ s.
Proof.
  destruct (subtree_shape doc root) as [-> | (t & nx & _ & Hs & _)]; [intros []|].
  rewrite Hs; intro Hin.
  destruct (pre_all_ok t root nx) as [Hf _]; rewrite Forall_forall in Hf; exact (Hf e Hin).
Qed.

(** A Text node has no descendants. *)
Lemma node_at_below_text doc p s i r :
  node_at doc p = Some (Text s) -> node_at doc (p ++ i :: r) = None.
Proof.
  unfold node_at; rewrite locate_app.
  destruct (locate (html doc) None p) as [[t nx]|]; simpl; [|discriminate].
  intro H; injection H as ->; reflexivity.
Qed.

Lemma node_at_root doc : node_at doc [] = Some (html doc).
Proof. reflexivity. Qed.

Lemma text_not_root doc q s : node_at doc q = Some (Text s) -> q <> [].
Proof. intros H ->; rewrite node_at_root in H; discriminate. Qed.

(** [count(root, root)] *)
Lemma count_self doc root t ca : node_at doc root = Some t -> count doc root (Some root) ca = 0.
Proof.
  intro Hn; destruct (subtree_of_node _ _ _ Hn) as [nx Hs].
  destruct (pre_head root nx t) as [rest Hr]; rewrite Hr in Hs.
  assert (Hseek : seek root (subtree doc root) = Some ([], mkEntry root t nx))
    by (rewrite Hs; cbn [seek e_path]; rewrite path_eqb_refl; reflexivity).
  rewrite (count_seek_eq _ _ _ _ _ Hseek); unfold count_visits; rewrite Hseek.
  cbn; unfold count_step; cbn [e_path e_node]; rewrite path_eqb_refl.
  destruct t; reflexivity.
Qed.

Definition pre_text (t : tree) : Prop :=
  forall p nx, list_sum (map textc (pre p nx t)) = textLength t.

Lemma kids_text p ks : forall i, Forall pre_text ks ->
  list_sum (map textc (kids_of pre p i ks)) = list_sum (map textLength ks).
Proof.
  induction ks as [|k ks IH]; intros i Hf; [reflexivity|].
  apply Forall_cons_iff in Hf as [Hk Hf]; simpl.
  rewrite map_app, list_sum_app, Hk, IH by exact Hf; reflexivity.
Qed.

(** The Text lengths of a subtree add up to its [textContent.length]. *)
Lemma pre_all_text t : pre_text t.
Proof.
  induction t as [s|tg ks Hks] using tree_ind'; intros p nx.
  - unfold textc; simpl; lia.
  - rewrite pre_Element; cbn [map list_sum fold_right]; unfold textc at 1; cbn [e_node].
    exact (kids_text p ks 0 Hks).
Qed.

(** Nodes the walker skips are Elements: Text nodes pass [filter]. *)
Lemma text_accepted ca e s : e_node e = Text s -> accepts ca e = true.
Proof. intro H; unfold accepts, filter; rewrite H; simpl; apply orb_true_r. Qed.

Lemma textc_filter ca l :
  list_sum (map textc (List.filter (accepts ca) l)) = list_sum (map textc l).
Proof.
  induction l as [|e l IH]; [reflexivity|]; simpl.
  destruct (accepts ca e) eqn:Ha; simpl; rewrite IH; [reflexivity|].
  unfold textc; destruct (e_node e) as [tg ks|s] eqn:He; [reflexivity|].
  rewrite (text_accepted ca e s He) in Ha; discriminate.
Qed.

(** [count(root)] node by node: the steps and the Text lengths of the
    visited nodes. *)
Lemma count_None doc root t ca :
  node_at doc root = Some t ->
  exists nx R, subtree doc root = mkEntry root t nx :: R /\
    Forall (fun e => e_path e <> root) R /\
    count doc root None ca =
      list_sum (map (stepc root ca) (List.filter (accepts ca) R)) + textLength t.
Proof.
  intro Hn; destruct (subtree_of_node _ _ _ Hn) as [nx Hs].
  destruct (pre_head root nx t) as [R HR].
  pose proof (pre_all_text t root nx) as Htx.
  pose proof (subtree_nodup doc root) as Hnd.
  rewrite HR in Hs, Htx; rewrite Hs in Hnd; cbn [map] in Hnd.
  exists nx, R; split; [exact Hs|split].
  { apply Forall_forall; intros e He Heq; inversion Hnd as [|? ? Hni _]; apply Hni.
    rewrite <- Heq; apply in_map; exact He. }
  rewrite count_None_eq; unfold count_visits, nextNodes; rewrite Hs; simpl tl.
  rewrite count_loop_sum; cbn [map list_sum fold_right].
  rewrite count_step_None; unfold stepc at 1; cbn [e_path e_node]; rewrite path_eqb_refl.
  cbn [map list_sum fold_right] in Htx.
  assert (Hsum : forall l, list_sum (map (count_step root None ca) l) =
                           list_sum (map (stepc root ca) l) + list_sum (map textc l)).
  { induction l as [|e l IH]; [reflexivity|]; simpl; rewrite count_step_None, IH; lia. }
  fold (list_sum (map (count_step root None ca) (List.filter (accepts ca) R))).
  rewrite Hsum, textc_filter; simpl; unfold list_sum in *; lia.
Qed.

Lemma last_in {A} (x : A) l : In (last (x :: l) x) (x :: l).
Proof.
  rewrite (app_removelast_last x (l := x :: l)) at 2 by discriminate.
  apply in_or_app; right; left; reflexivity.
Qed.

(** [count(root, root, countAll)] is 0: the walk starts and stops at
    [root], which adds neither a step nor its text. *)
Theorem count_to_root (doc : document) (root : path) (t : tree) (countAll : bool) :
  node_at doc root = Some t -> count doc root (Some root) countAll = 0.
Proof. apply count_self. Qed.

Lemma count_to_root_witness :
  node_at [Element "P" [Text "AB"]] [0] = Some (Element "P" [Text "AB"]) /\
  count [Element "P" [Text "AB"]] [0] (Some [0]) false = 0.
Proof.
  split; [reflexivity|].
  apply (count_to_root [Element "P" [Text "AB"]] [0] (Element "P" [Text "AB"]) false); reflexivity.
Defined.

(** With [countAll], [count(root)] is the number of nodes strictly inside
    [root] plus [root.textContent.length]. *)
Theorem count_all_nodes (doc : document) (root : path) (t : tree) :
  node_at doc root = Some t ->
  count doc root None true = List.length (subtree doc root) - 1 + textLength t.
Proof.
  intro Hn; destruct (count_None doc root t true Hn) as (nx & R & Hs & HR & ->).
  rewrite Hs; cbn [List.length]; rewrite Nat.sub_1_r, Nat.pred_succ.
  f_equal; clear Hs; induction R as [|e R IH]; [reflexivity|].
  apply Forall_cons_iff in HR as [He HR]; cbn [List.filter accepts orb map list_sum fold_right].
  rewrite (stepc_sig root true e He); cbn [significant orb].
  fold (list_sum (map (stepc root true) (List.filter (accepts true) R))); rewrite IH by exact HR.
  reflexivity.
Qed.

Lemma count_all_nodes_witness :
  let doc := [Element "P" [Text "AB"; Element "BR" []; Text "C"]] in
  node_at doc [0] = Some (Element "P" [Text "AB"; Element "BR" []; Text "C"]) /\
  count doc [0] None true = List.length (subtree doc [0]) - 1 + textLength (Element "P" [Text "AB"; Element "BR" []; Text "C"]).
Proof.
  intro doc; split; [reflexivity|].
  apply (count_all_nodes doc [0] (Element "P" [Text "AB"; Element "BR" []; Text "C"])); reflexivity.
Defined.

(** In either mode [count(root)] is at least [root.textContent.length]:
    every Text node inside [root] is visited and adds its length. *)
Theorem count_ge_text_length (doc : document) (root : path) (t : tree) (countAll : bool) :
  node_at doc root = Some t -> textLength t <= count doc root None countAll.
Proof. intro Hn; destruct (count_None doc root t countAll Hn) as (nx & R & _ & _ & ->); lia. Qed.

Lemma count_ge_text_length_witness :
  let doc := [Element "UL" [Element "LI" [Text "AB"]]] in
  node_at doc [0] = Some (Element "UL" [Element "LI" [Text "AB"]]) /\
  textLength (Element "UL" [Element "LI" [Text "AB"]]) <= count doc [0] None false.
Proof.
  intro doc; split; [reflexivity|].
  apply (count_ge_text_length doc [0] (Element "UL" [Element "LI" [Text "AB"]]) false); reflexivity.
Defined.

(** [uncount(root, n)] never leaves [root]: its [ref] is [root] or a node
    inside it, unless [root] is itself a [BR] (whose parent is returned). *)
Theorem uncount_ref_inside (doc : document) (root : path) (t : tree) (n : nat) (countAll : bool) :
  node_at doc root = Some t -> nodeName t <> "BR" ->
  is_prefix root (ref (uncount doc root (Some n) countAll)) = true.
Proof.
  intros Hn Hbr; unfold uncount.
  destruct (resolve doc root n countAll) as [[x o]|] eqn:Hres.
  2:{ simpl; rewrite <- (app_nil_r root) at 2; apply is_prefix_app. }
  pose proof (resolve_in _ _ _ _ _ _ Hres) as Hin.
  destruct (subtree_path _ _ _ Hin) as [sfx Hp].
  destruct (String.eqb (nodeName (e_node x)) "BR") eqn:Hx; cbn [ref].
  - destruct sfx as [|i sfx].
    + exfalso; apply Hbr; pose proof (subtree_node_at _ _ _ Hin) as Hxn.
      rewrite Hp, app_nil_r, Hn in Hxn; injection Hxn as ->.
      apply String.eqb_eq; exact Hx.
    + rewrite Hp, removelast_app by discriminate; apply is_prefix_app.
  - rewrite Hp; apply is_prefix_app.
Qed.

Lemma uncount_ref_inside_witness :
  let doc := [Element "DIV" [Element "P" [Text "AB"]; Element "BR" []; Element "P" []]] in
  (node_at doc [0] = Some (Element "DIV" [Element "P" [Text "AB"]; Element "BR" []; Element "P" []]) /\
   nodeName (Element "DIV" [Element "P" [Text "AB"]; Element "BR" []; Element "P" []]) <> "BR") /\
  is_prefix [0] (ref (uncount doc [0] (Some 4) false)) = true.
Proof.
  intro doc; split; [split; [reflexivity|discriminate]|].
  apply (uncount_ref_inside doc [0] (Element "DIV" [Element "P" [Text "AB"]; Element "BR" []; Element "P" []]) 4 false);
    [reflexivity|discriminate].
Defined.

Lemma element_of_ancestor doc ca ct :
  node_at doc ca = Some ct ->
  exists t', node_at doc (if Nat.eqb (nodeType ct) 1 then ca else removelast ca) = Some t'.
Proof.
  intro H; destruct ct as [tg ks|str]; cbn [nodeType Nat.eqb]; [eauto|].
  destruct (node_at_parent _ _ _ H (text_not_root _ _ _ H)) as (tg & ks & Hp & _); eauto.
Qed.

(** In the fallback of [contains], a node outside the Element [element]
    around the selection's common ancestor is contained exactly when
    [partlyContained] is set and the node is an ancestor of [element];
    a Text node outside it is never contained. *)
Theorem contains_outside (h : Host) (node : path) (partlyContained : bool) (t : tree)
    (rng : Range) (ct : tree) (element : path) :
  node_at (h_doc h) node = Some t ->
  containsNode (h_sel h) = None ->
  getRangeAt0 (h_sel h) = Ok rng ->
  node_at (h_doc h) (commonAncestorContainer rng) = Some ct ->
  element = (if Nat.eqb (nodeType ct) 1 then commonAncestorContainer rng
             else removelast (commonAncestorContainer rng)) ->
  is_prefix element node = false ->
  contains h node partlyContained = Ok (partlyContained && is_prefix node element).
Proof.
  intros Ht Hcn Hr Hct Hel Hpre.
  assert (Hneq : path_eqb element node = false).
  { destruct (path_eqb element node) eqn:E; [|reflexivity].
    apply path_eqb_spec in E; rewrite E in Hpre.
    pose proof (is_prefix_app node []) as Hp; rewrite app_nil_r in Hp; congruence. }
  unfold contains; cbv zeta.
  rewrite (node_of_at _ _ _ Ht); cbn [bind]; rewrite Hcn, Hr; cbn [bind].
  rewrite (node_of_at _ _ _ Hct); cbn [bind].
  rewrite <- Hel, Hneq, Hpre; cbn [negb andb].
  destruct t as [tg ks|str]; cbn [nodeType Nat.eqb]; [reflexivity|].
  destruct (is_prefix node element) eqn:Hnp; [|rewrite !andb_false_r; reflexivity].
  exfalso; destruct (is_prefix_inv _ _ Hnp) as [[|i r] Her].
  - rewrite app_nil_r in Her; rewrite Her, path_eqb_refl in Hneq; discriminate.
  - destruct (element_of_ancestor _ _ _ Hct) as [t' Ht']; rewrite <- Hel, Her in Ht'.
    rewrite (node_at_below_text _ _ _ _ _ Ht) in Ht'; discriminate.
Qed.

Lemma contains_outside_witness :
  let h := mkHost [Element "P" [Text "AB"]; Element "P" [Text "CD"]]
                  (mkSelection [mkRange [0; 0] 0 [0; 0] 1] None) None [] in
  (node_at (h_doc h) [] = Some (html (h_doc h)) /\
   containsNode (h_sel h) = None /\
   getRangeAt0 (h_sel h) = Ok (mkRange [0; 0] 0 [0; 0] 1) /\
   node_at (h_doc h) (commonAncestorContainer (mkRange [0; 0] 0 [0; 0] 1)) = Some (Text "AB") /\
   [0] = (if Nat.eqb (nodeType (Text "AB")) 1 then commonAncestorContainer (mkRange [0; 0] 0 [0; 0] 1)
          else removelast (commonAncestorContainer (mkRange [0; 0] 0 [0; 0] 1))) /\
   is_prefix [0] [] = false) /\
  contains h [] true = Ok (true && is_prefix [] [0]).
Proof.
  intro h; split; [repeat split; reflexivity|].
  exact (contains_outside h [] true (html (h_doc h)) (mkRange [0; 0] 0 [0; 0] 1) (Text "AB") [0]
           eq_refl eq_refl eq_refl eq_refl eq_refl eq_refl).
Defined.

Lemma filter_length_le' {A} (f : A -> bool) l : List.length (List.filter f l) <= List.length l.
Proof. induction l as [|a l IH]; simpl; [lia|destruct (f a); simpl; lia]. Qed.

(** When [contains] succeeds on every node, [contained(nodes)] is the
    sublist of the nodes contained, [containsSome(nodes)] is [true]
    exactly when that sublist is non-empty and [containsEvery(nodes)]
    exactly when it is all of [nodes]. *)
Theorem contained_some_every (h : Host) (nodes : list path) (partlyContained : bool) :
  (forall n, In n nodes -> exists b, contains h n partlyContained = Ok b) ->
  let l := List.filter (fun n => match contains h n partlyContained with Ok b => b | Err _ => false end)
                       nodes in
  contained h nodes partlyContained = Ok l /\
  containsSome h nodes partlyContained = Ok (negb (Nat.eqb (List.length l) 0)) /\
  containsEvery h nodes partlyContained = Ok (Nat.eqb (List.length l) (List.length nodes)).
Proof.
  cbv zeta; induction nodes as [|n ns IH]; intros Hok; [repeat split; reflexivity|].
  destruct (Hok n (or_introl eq_refl)) as [b Hb].
  destruct IH as (H1 & H2 & H3); [intros m Hm; apply Hok; right; exact Hm|].
  cbn [contained containsSome containsEvery List.filter]; rewrite Hb; cbn [bind].
  rewrite H1; cbn [bind]; destruct b.
  - split; [reflexivity|split; [reflexivity|exact H3]].
  - split; [reflexivity|split; [exact H2|]].
    f_equal; symmetry; apply Nat.eqb_neq.
    pose proof (filter_length_le' (fun n => match contains h n partlyContained with
                                            | Ok b => b | Err _ => false end) ns).
    cbn [List.length]; lia.
Qed.

Lemma contained_some_every_witness :
  let h := mkHost [Element "P" [Text "AB"]; Element "P" [Text "CD"]]
                  (mkSelection [mkRange [0; 0] 0 [0; 0] 2] None) None [] in
  (forall n, In n [[0; 0]; [1; 0]] -> exists b, contains h n false = Ok b) /\
  (let l := List.filter (fun n => match contains h n false with Ok b => b | Err _ => false end)
                        [[0; 0]; [1; 0]] in
   contained h [[0; 0]; [1; 0]] false = Ok l /\
   containsSome h [[0; 0]; [1; 0]] false = Ok (negb (Nat.eqb (List.length l) 0)) /\
   containsEvery h [[0; 0]; [1; 0]] false = Ok (Nat.eqb (List.length l) (List.length [[0; 0]; [1; 0]]))).
Proof.
  intro h.
  assert (Hok : forall n, In n [[0; 0]; [1; 0]] -> exists b, contains h n false = Ok b).
  { intros n [<-|[<-|[]]]; eexists; vm_compute; reflexivity. }
  split; [exact Hok|exact (contained_some_every h _ false Hok)].
Defined.

(** [uncount] from a Text node returns the node and the offset. *)
Lemma uncount_text doc q s k ca :
  node_at doc q = Some (Text s) -> uncount doc q (Some k) ca = mkPosition q k.
Proof.
  intro Hn; destruct (subtree_of_node _ _ _ Hn) as [nx Hs]; unfold uncount, resolve; rewrite Hs.
  reflexivity.
Qed.

Lemma textNodesOf_text doc node t e :
  node_at doc node = Some t -> In e (textNodesOf doc node t) ->
  exists s, e_node e = Text s /\ node_at doc (e_path e) = Some (Text s).
Proof.
  intros Hn Hin; unfold textNodesOf in Hin.
  destruct t as [tg ks|s]; cbn [nodeType Nat.eqb] in Hin.
  - unfold textDescendants in Hin; apply filter_In in Hin as [Hin Hty].
    assert (Hin' : In e (subtree doc node))
      by (destruct (subtree doc node); [contradiction|right; exact Hin]).
    pose proof (subtree_node_at _ _ _ Hin') as He.
    destruct (e_node e) as [tg' ks'|s] eqn:Hen; [simpl in Hty; discriminate|].
    exists s; split; [reflexivity|exact He].
  - destruct Hin as [<-|[]]; exists s; split; [reflexivity|exact Hn].
Qed.

(** The bounds check of [set] accepts what [uncount] returns from an
    Element root within [count(root)]. *)
Lemma uncount_in_bounds doc root tg ks ca n :
  node_at doc root = Some (Element tg ks) -> n <= count doc root None ca ->
  exceeds doc (uncount doc root (Some n) ca) = Ok false.
Proof.
  intros Hn Hle; unfold uncount.
  destruct (resolve doc root n ca) as [[x o]|] eqn:Hres.
  2:{ destruct (subtree_of_node _ _ _ Hn) as [nx Hs].
      unfold resolve in Hres; rewrite Hs, pre_Element in Hres; discriminate. }
  pose proof (subtree_node_at _ _ x (resolve_in _ _ _ _ _ _ Hres)) as Hx.
  pose proof (resolve_bound _ _ _ _ _ _ _ _ Hn Hle Hres) as Ho.
  destruct (String.eqb (nodeName (e_node x)) "BR") eqn:Hbr.
  - destruct (node_at_parent _ _ _ Hx (br_not_html _ _ _ Hx Hbr)) as (tg' & ks' & Hpar & Hlt).
    rewrite (exceeds_at _ (mkPosition (removelast (e_path x)) (last (e_path x) 0 + 1)) _ Hpar).
    cbn [nodeType Nat.eqb childCount Selektr.offset].
    f_equal; apply Nat.ltb_ge; lia.
  - rewrite (exceeds_at _ (mkPosition (e_path x) o) _ Hx); cbn [Selektr.offset].
    unfold textc in Ho; destruct (e_node x) as [tg' ks'|s]; cbn [nodeType Nat.eqb];
      f_equal; apply Nat.ltb_ge; simpl; lia.
Qed.

(** [select(node)] on a node with Text nodes (itself, or inside it)
    selects from the start of the first one to the end of the last one. *)
Theorem select_text (h : Host) (node : path) (t : tree) (f : entry) (rest : list entry) :
  node_at (h_doc h) node = Some t ->
  textNodesOf (h_doc h) node t = f :: rest ->
  select h node =
    Ok (install (h_sel h) (mkPosition (e_path f) 0)
                (mkPosition (e_path (last (f :: rest) f)) (textLength (e_node (last (f :: rest) f))))).
Proof.
  intros Hn Htn.
  destruct (textNodesOf_text _ _ _ f Hn ltac:(rewrite Htn; left; reflexivity)) as (sf & Hf & Hfn).
  destruct (textNodesOf_text _ _ _ (last (f :: rest) f) Hn ltac:(rewrite Htn; apply last_in))
    as (sl & Hl & Hln).
  unfold select; rewrite (node_of_at _ _ _ Hn); cbn [bind]; rewrite Htn.
  unfold set; cbn [set_boundaries].
  rewrite (uncount_text _ _ _ _ _ Hfn), (uncount_text _ _ _ _ _ Hln); cbn [Selektr.offset ref].
  rewrite (exceeds_at _ (mkPosition (e_path f) 0) _ Hfn).
  rewrite (exceeds_at _ (mkPosition (e_path (last (f :: rest) f)) (textLength (e_node (last (f :: rest) f)))) _ Hln).
  rewrite Hl; cbn [nodeType Nat.eqb textLength Selektr.offset bind].
  replace (Nat.ltb (String.length sf) 0) with false by (symmetry; apply Nat.ltb_ge; lia).
  rewrite Nat.ltb_irrefl; reflexivity.
Qed.

Lemma select_text_witness :
  let h := mkHost [Element "P" [Text "AB"; Element "B" [Text "C"]; Text "DE"]]
                  (mkSelection [] None) None [] in
  let f := mkEntry [0; 0] (Text "AB") (Some (Element "B" [Text "C"])) in
  let rest := [mkEntry [0; 1; 0] (Text "C") None; mkEntry [0; 2] (Text "DE") None] in
  (node_at (h_doc h) [0] = Some (Element "P" [Text "AB"; Element "B" [Text "C"]; Text "DE"]) /\
   textNodesOf (h_doc h) [0] (Element "P" [Text "AB"; Element "B" [Text "C"]; Text "DE"]) = f :: rest) /\
  select h [0] =
    Ok (install (h_sel h) (mkPosition (e_path f) 0)
                (mkPosition (e_path (last (f :: rest) f)) (textLength (e_node (last (f :: rest) f))))).
Proof.
  intros h f rest; split; [split; reflexivity|].
  apply (select_text h [0] (Element "P" [Text "AB"; Element "B" [Text "C"]; Text "DE"]) f rest);
    reflexivity.
Defined.

(** [select(node)] on an Element with no Text inside it installs the
    collapsed range at [uncount(node, 0)], which [set] never rejects (for
    a [BR]: just after it in its parent). *)
Theorem select_no_text (h : Host) (node : path) (tg : string) (ks : list tree) :
  node_at (h_doc h) node = Some (Element tg ks) ->
  textNodesOf (h_doc h) node (Element tg ks) = [] ->
  select h node = Ok (install (h_sel h) (uncount (h_doc h) node (Some 0) false)
                                        (uncount (h_doc h) node (Some 0) false)).
Proof.
  intros Hn Htn; unfold select; rewrite (node_of_at _ _ _ Hn); cbn [bind]; rewrite Htn.
  unfold set; cbn [set_boundaries Selektr.offset ref].
  rewrite (uncount_in_bounds _ _ _ _ false 0 Hn (Nat.le_0_l _)); reflexivity.
Qed.

Lemma select_no_text_witness :
  let h := mkHost [Element "P" [Text "AB"; Element "BR" []]] (mkSelection [] None) None [] in
  (node_at (h_doc h) [0; 1] = Some (Element "BR" []) /\
   textNodesOf (h_doc h) [0; 1] (Element "BR" []) = []) /\
  select h [0; 1] = Ok (install (h_sel h) (uncount (h_doc h) [0; 1] (Some 0) false)
                                          (uncount (h_doc h) [0; 1] (Some 0) false)).
Proof.
  intro h; split; [split; reflexivity|].
  apply (select_no_text h [0; 1] "BR" []); reflexivity.
Defined.

(** [isAtStartOfSection(section)] holds for a selection starting at
    offset 0 of the section itself, and fails for one starting at a
    positive offset inside a Text node of the section. *)
Theorem at_start_of_section (h : Host) (s : path) (tg : string) (ks : list tree) (rng : Range) :
  node_at (h_doc h) s = Some (Element tg ks) ->
  getRangeAt0 (h_sel h) = Ok rng ->
  (startContainer rng = s -> startOffset rng = 0 -> isAtStartOfSection h (Some s) = Ok true) /\
  (forall str, node_at (h_doc h) (startContainer rng) = Some (Text str) ->
     is_prefix s (startContainer rng) = true -> 0 < startOffset rng ->
     isAtStartOfSection h (Some s) = Ok false).
Proof.
  intros Hs Hr; split.
  - intros Hc Ho; unfold isAtStartOfSection, offset; cbn [bind]; rewrite Hr; cbn [bind].
    cbn [container boundaryOffset]; rewrite Hc, Ho, (node_of_at _ _ _ Hs).
    cbn [bind nodeType Nat.eqb Nat.ltb Nat.leb andb fst snd].
    f_equal; apply Nat.eqb_eq; rewrite Nat.add_0_r; apply (count_self _ _ _ false Hs).
  - intros str Htx _ Hpos; unfold isAtStartOfSection, offset; cbn [bind]; rewrite Hr; cbn [bind].
    cbn [container boundaryOffset]; rewrite (node_of_at _ _ _ Htx).
    cbn [bind nodeType Nat.eqb andb fst snd].
    f_equal; apply Nat.eqb_neq; lia.
Qed.

Lemma at_start_of_section_witness :
  let h := mkHost [Element "P" [Text "AB"]] (mkSelection [mkRange [0; 0] 1 [0; 0] 1] None) None [] in
  (node_at (h_doc h) [0] = Some (Element "P" [Text "AB"]) /\
   getRangeAt0 (h_sel h) = Ok (mkRange [0; 0] 1 [0; 0] 1)) /\
  ((startContainer (mkRange [0; 0] 1 [0; 0] 1) = [0] -> startOffset (mkRange [0; 0] 1 [0; 0] 1) = 0 ->
    isAtStartOfSection h (Some [0]) = Ok true) /\
   (forall str, node_at (h_doc h) (startContainer (mkRange [0; 0] 1 [0; 0] 1)) = Some (Text str) ->
      is_prefix [0] (startContainer (mkRange [0; 0] 1 [0; 0] 1)) = true ->
      0 < startOffset (mkRange [0; 0] 1 [0; 0] 1) ->
      isAtStartOfSection h (Some [0]) = Ok false)).
Proof.
  intro h; split; [split; reflexivity|].
  apply (at_start_of_section h [0] "P" [Text "AB"] (mkRange [0; 0] 1 [0; 0] 1)); reflexivity.
Defined.

(** [isAtEndOfSection(section)] holds for a selection ending at the end
    of the section's last node, a Text node, when the section has no
    nested list. *)
Theorem at_end_of_section (h : Host) (s : path) (tg : string) (ks : list tree) (rng : Range)
    (R : list entry) (x : entry) (str : string) :
  node_at (h_doc h) s = Some (Element tg ks) ->
  listChildren (h_doc h) s = [] ->
  subtree (h_doc h) s = R ++ [x] ->
  e_node x = Text str ->
  getRangeAt0 (h_sel h) = Ok rng ->
  endContainer rng = e_path x ->
  endOffset rng = String.length str ->
  isAtEndOfSection h (Some s) = Ok true.
Proof.
  intros Hs Hlc Hsub Hx Hr Hec Heo.
  assert (Hin : In x (subtree (h_doc h) s)) by (rewrite Hsub; apply in_or_app; right; left; reflexivity).
  assert (Hpre : is_prefix s (e_path x) = true)
    by (destruct (subtree_path _ _ _ Hin) as [sfx ->]; apply is_prefix_app).
  pose proof (subtree_node_at _ _ _ Hin) as Hxn; rewrite Hx in Hxn.
  unfold isAtEndOfSection, range; rewrite Hr; cbn [bind].
  rewrite Hec, Hpre, andb_false_r.
  unfold atEndOf, offset; rewrite Hr; cbn [bind container boundaryOffset].
  rewrite Hec, (node_of_at _ _ _ Hxn); cbn [bind nodeType Nat.eqb andb fst snd].
  rewrite Heo, Hlc; f_equal; apply Nat.eqb_eq.
  destruct (subtree_of_node _ _ _ Hs) as [nx Hps]; rewrite pre_Element, Hsub in Hps.
  destruct R as [|r R1].
  { simpl in Hps; injection Hps as Hxr _; rewrite Hxr in Hx; discriminate. }
  simpl in Hps; injection Hps as Hr' _.
  pose proof (subtree_nodup (h_doc h) s) as Hnd; rewrite Hsub in Hnd.
  pose proof (count_before (h_doc h) s false (r :: R1) x [] Hsub Hnd) as E1.
  assert (E2 : count (h_doc h) s None false = weight s false (R1 ++ [x]))
    by (apply (count_total (h_doc h) s false tg ks r (R1 ++ [x]) Hsub); rewrite Hr'; reflexivity).
  unfold path in *; rewrite E1, E2; clear E1 E2.
  change (r :: R1) with ([r] ++ R1).
  rewrite !weight_app, !weight_one, (text_accepted false x str Hx), Hr'.
  assert (Hsx : stepc s false x = 0) by (unfold stepc; rewrite Hx; destruct (negb _); reflexivity).
  assert (Hsr : stepc s false (mkEntry s (Element tg ks) nx) = 0)
    by (unfold stepc; cbn [e_path]; rewrite path_eqb_refl; reflexivity).
  assert (Htx : textc x = String.length str) by (unfold textc; rewrite Hx; reflexivity).
  rewrite Hsx, Hsr, Htx; cbn [textc e_node].
  destruct (accepts false _); lia.
Qed.

Lemma at_end_of_section_witness :
  let h := mkHost [Element "P" [Element "B" [Text "A"]; Text "BC"]]
                  (mkSelection [mkRange [0; 1] 2 [0; 1] 2] None) None [] in
  let x := mkEntry [0; 1] (Text "BC") None in
  let R := [mkEntry [0] (Element "P" [Element "B" [Text "A"]; Text "BC"]) None;
            mkEntry [0; 0] (Element "B" [Text "A"]) (Some (Text "BC"));
            mkEntry [0; 0; 0] (Text "A") None] in
  (node_at (h_doc h) [0] = Some (Element "P" [Element "B" [Text "A"]; Text "BC"]) /\
   listChildren (h_doc h) [0] = [] /\
   subtree (h_doc h) [0] = R ++ [x] /\
   e_node x = Text "BC" /\
   getRangeAt0 (h_sel h) = Ok (mkRange [0; 1] 2 [0; 1] 2) /\
   endContainer (mkRange [0; 1] 2 [0; 1] 2) = e_path x /\
   endOffset (mkRange [0; 1] 2 [0; 1] 2) = String.length "BC") /\
  isAtEndOfSection h (Some [0]) = Ok true.
Proof.
  intros h x R; split; [repeat split; reflexivity|].
  apply (at_end_of_section h [0] "P" [Element "B" [Text "A"]; Text "BC"] (mkRange [0; 1] 2 [0; 1] 2)
           R x "BC"); reflexivity.
Defined.

(** [set(positions, false)] with boundaries that pass its bounds check
    installs them, and [get('end', true)] then reads back [end];
    [get('start', true)] reads back [start] unless [end] is before [start]
    in the document, where the range is collapsed at [end]. *)
Theorem set_then_get (h : Host) (positions : Positions) (start end_ : Position) (countAll : jsval) :
  set_boundaries (h_doc h) positions (Some false) = (start, end_) ->
  exceeds (h_doc h) start = Ok false ->
  exceeds (h_doc h) end_ = Ok false ->
  exists sel, set h positions (Some false) = Ok sel /\
    get (mkHost (h_doc h) sel (h_element h) (h_body h)) (JString "end") (JBool true) countAll =
      Ok (GotPosition end_) /\
    (bp_position (ref end_) (Selektr.offset end_) (ref start) (Selektr.offset start) <> Lt ->
     get (mkHost (h_doc h) sel (h_element h) (h_body h)) (JString "start") (JBool true) countAll =
       Ok (GotPosition start)) /\
    (bp_position (ref end_) (Selektr.offset end_) (ref start) (Selektr.offset start) = Lt ->
     get (mkHost (h_doc h) sel (h_element h) (h_body h)) (JString "start") (JBool true) countAll =
       Ok (GotPosition end_)).
Proof.
  intros Hb Hs He; exists (install (h_sel h) start end_).
  split; [unfold set; rewrite Hb, Hs; cbn [bind]; rewrite He; reflexivity|].
  unfold get, get_caret, install; cbn [String.eqb Ascii.eqb Bool.eqb getRangeAt0 ranges h_sel bind
                                         container boundaryOffset startContainer startOffset
                                         endContainer endOffset].
  split; [destruct end_; reflexivity|].
  split; intro Hc.
  - destruct (bp_position _ _ _ _); [| exfalso; apply Hc; reflexivity |]; destruct start; reflexivity.
  - rewrite Hc; destruct end_; reflexivity.
Qed.

Lemma set_then_get_witness :
  let h := mkHost [Element "P" [Text "AB"]] (mkSelection [] None) None [] in
  let ps := TwoPositions (mkPosition [0; 0] 2) (Some (mkPosition [0; 0] 0)) in
  (set_boundaries (h_doc h) ps (Some false) = (mkPosition [0; 0] 2, mkPosition [0; 0] 0) /\
   exceeds (h_doc h) (mkPosition [0; 0] 2) = Ok false /\
   exceeds (h_doc h) (mkPosition [0; 0] 0) = Ok false) /\
  exists sel, set h ps (Some false) = Ok sel /\
    get (mkHost (h_doc h) sel (h_element h) (h_body h)) (JString "end") (JBool true) JUndefined =
      Ok (GotPosition (mkPosition [0; 0] 0)) /\
    (bp_position [0; 0] 0 [0; 0] 2 <> Lt ->
     get (mkHost (h_doc h) sel (h_element h) (h_body h)) (JString "start") (JBool true) JUndefined =
       Ok (GotPosition (mkPosition [0; 0] 2))) /\
    (bp_position [0; 0] 0 [0; 0] 2 = Lt ->
     get (mkHost (h_doc h) sel (h_element h) (h_body h)) (JString "start") (JBool true) JUndefined =
       Ok (GotPosition (mkPosition [0; 0] 0))).
Proof.
  intros h ps; split; [repeat split; reflexivity|].
  apply (set_then_get h ps (mkPosition [0; 0] 2) (mkPosition [0; 0] 0) JUndefined); reflexivity.
Defined.






End Extras.
